(** * RVGP.geometry: a shallow embedding of the geometry core

    The development follows [src/RVGP/geometry.py].  Part I embeds the data
    model and the functions of the module; Part II states and proves the
    properties of the specification against these definitions.

    Numbers.  The Python code computes on IEEE doubles.  Rounding is not
    modelled: a finite double is an exact rational ([Q]) or, where the code
    needs square roots and exponentials, a real ([R]).  What is modelled of
    IEEE arithmetic is the part the code relies on: division by zero yields
    an infinity or a NaN instead of raising, and those values propagate.

    Libraries.  numpy, scipy, networkx and scikit-learn are not part of the
    repository.  Each library call of the source is embedded by the
    behaviour its documentation fixes (shapes, broadcasting, argument
    checks); purely numerical routines (eigen-solver, matrix exponential,
    neighbour search, metric) are parameters of the functions that call
    them. *)

From Stdlib Require Import List Arith Lia Bool ZArith QArith Qabs String.
From Stdlib Require Import Reals Lra.
Import ListNotations.

Open Scope Q_scope.
Open Scope nat_scope.

(* ================================================================== *)
(** * Part I.  Definitions                                             *)
(* ================================================================== *)

(** ** Python results: a value or a raised exception *)

Module Py.

Inductive exn : Type :=
| IndexError
| ValueError
| TypeError
| AttributeError
| UnboundLocalError
| AssertionError
| NotImplementedError
| ZeroDivisionError
| NetworkXError.

Inductive result (A : Type) : Type :=
| Ok (a : A)
| Raise (e : exn).

Arguments Ok {A} a.
Arguments Raise {A} e.

Definition bind {A B : Type} (m : result A) (k : A -> result B) : result B :=
  match m with
  | Ok a => k a
  | Raise e => Raise e
  end.

End Py.

Import Py.

Declare Scope py_scope.
Delimit Scope py_scope with py.
Notation "x <- m ;; k" := (Py.bind m (fun x => k))
  (at level 61, m at next level, right associativity) : py_scope.
Notation "'assert!' c ;; k" := (if c then k else Raise AssertionError)
  (at level 61, c at next level, right associativity) : py_scope.

(** ** Doubles with their special values *)

Module F64.

(** A double is a finite number, an infinity or a NaN.  Signed zeros are
    not distinguished: every zero the code divides by is [+0.0]. *)
Inductive float : Type :=
| Fin (q : Q)
| PInf
| NInf
| NaN.

Definition Qsign (q : Q) : comparison := (Qnum q ?= 0)%Z.

Definition inf_of_sign (c : comparison) : float :=
  match c with
  | Gt => PInf
  | Lt => NInf
  | Eq => NaN
  end.

Definition is_finite (x : float) : bool :=
  match x with Fin _ => true | _ => false end.

Definition fadd (x y : float) : float :=
  match x, y with
  | NaN, _ | _, NaN => NaN
  | Fin a, Fin b => Fin (a + b)
  | PInf, NInf | NInf, PInf => NaN
  | PInf, _ | _, PInf => PInf
  | NInf, _ | _, NInf => NInf
  end.

Definition fmul (x y : float) : float :=
  match x, y with
  | NaN, _ | _, NaN => NaN
  | Fin a, Fin b => Fin (a * b)
  | Fin a, PInf | PInf, Fin a => inf_of_sign (Qsign a)
  | Fin a, NInf | NInf, Fin a => inf_of_sign (CompOpp (Qsign a))
  | PInf, PInf | NInf, NInf => PInf
  | PInf, NInf | NInf, PInf => NInf
  end.

(** [x / y] as numpy computes it: a warning, never an exception. *)
Definition fdiv (x y : float) : float :=
  match x, y with
  | NaN, _ | _, NaN => NaN
  | Fin a, Fin b =>
      if Qeq_bool b 0 then inf_of_sign (Qsign a) else Fin (a / b)
  | Fin _, PInf | Fin _, NInf => Fin 0
  | PInf, Fin b => match Qsign b with Lt => NInf | _ => PInf end
  | NInf, Fin b => match Qsign b with Lt => PInf | _ => NInf end
  | _, _ => NaN
  end.

(** Python's [==] and [<] on doubles: every comparison with NaN is false. *)
Definition feqb (x y : float) : bool :=
  match x, y with
  | Fin a, Fin b => Qeq_bool a b
  | PInf, PInf | NInf, NInf => true
  | _, _ => false
  end.

Definition fltb (x y : float) : bool :=
  match x, y with
  | NaN, _ | _, NaN => false
  | Fin a, Fin b => negb (Qle_bool b a)
  | NInf, NInf | PInf, _ => false
  | NInf, _ | _, PInf => true
  | Fin _, NInf => false
  end.

(** Equality of doubles as values: rationals up to [Qeq]. *)
Definition feq (x y : float) : Prop :=
  match x, y with
  | Fin a, Fin b => a == b
  | PInf, PInf | NInf, NInf | NaN, NaN => True
  | _, _ => False
  end.

Definition of_nat (n : nat) : float := Fin (inject_Z (Z.of_nat n)).

Definition fsum (l : list float) : float := fold_right fadd (Fin 0) l.

End F64.

Import F64.

Infix "=f=" := F64.feq (at level 70, no associativity).

(** ** Sparse and dense matrices *)

Module Sparse.

(** A scipy sparse matrix: its shape and, per position, the stored entry
    if there is one.  A position with no stored entry reads as zero. *)
Record spmatrix (T : Type) : Type := mkSp {
  sp_rows : nat;
  sp_cols : nat;
  sp_at : nat -> nat -> option T
}.

Arguments mkSp {T} _ _ _.
Arguments sp_rows {T} _.
Arguments sp_cols {T} _.
Arguments sp_at {T} _ _ _.

Definition in_shape (r c i j : nat) : bool := (i <? r) && (j <? c).

(** [M.todense()[i,j]] *)
Definition todense (M : spmatrix float) (i j : nat) : float :=
  match sp_at M i j with
  | Some v => v
  | None => Fin 0
  end.

Definition todenseQ (M : spmatrix Q) (i j : nat) : Q :=
  match sp_at M i j with
  | Some v => v
  | None => 0%Q
  end.

(** The binary operations of scipy's compressed formats keep a result only
    where it differs from zero. *)
Definition pruneQ (q : Q) : option Q :=
  if Qeq_bool q 0 then None else Some q.

Definition prune (v : float) : option float :=
  if feqb v (Fin 0) then None else Some v.

(** [csr_matrix(M, dtype=np.float64)] *)
Definition csr_float64 (M : spmatrix Q) : spmatrix float :=
  mkSp (sp_rows M) (sp_cols M)
       (fun i j => option_map Fin (sp_at M i j)).

(** [M.multiply(v)] for a dense vector [v] of length [M.shape[1]]: numpy
    broadcasting reads a one-dimensional [v] as a row, so the stored entry
    at [(i, j)] is multiplied by [v[j]].  Entries that are not stored are
    not touched. *)
Definition multiply_row_vector (M : spmatrix float) (v : nat -> float)
  : spmatrix float :=
  mkSp (sp_rows M) (sp_cols M)
       (fun i j => option_map (fun x => fmul x (v j)) (sp_at M i j)).

(** [sparse.kron(M, np.ones([d, d]))]: every stored entry becomes a stored
    [d] x [d] block holding the entry times one. *)
Definition kron_ones (M : spmatrix float) (d : nat) : spmatrix float :=
  mkSp (sp_rows M * d) (sp_cols M * d)
       (fun r c =>
          if in_shape (sp_rows M * d) (sp_cols M * d) r c
          then option_map (fun x => fmul x (Fin 1)) (sp_at M (r / d) (c / d))
          else None).

(** numpy's broadcasting of one dimension: equal lengths, or one of them
    is one. *)
Definition broadcast_dim (a b : nat) : option nat :=
  if a =? b then Some a
  else if a =? 1 then Some b
  else if b =? 1 then Some a
  else None.

(** The index read in a dimension of length [len] when the result is
    read at [i]: a dimension of length one is repeated. *)
Definition broadcast_index (len i : nat) : nat :=
  if len =? 1 then 0 else i.

(** [A.multiply(B)] for sparse matrices of different shapes: scipy
    follows numpy's broadcasting.  A 1 x 1 operand acts as a scalar on
    the stored entries of the other one; a row or a column is repeated
    (a product with a diagonal matrix, or of a column with a row, which
    stores the non-zero results); any other pair of shapes is refused. *)
Definition multiply_broadcast (A : spmatrix float) (B : spmatrix Q)
  : result (spmatrix float) :=
  if (sp_rows B =? 1) && (sp_cols B =? 1) then
    Ok (mkSp (sp_rows A) (sp_cols A)
          (fun r c =>
             option_map (fun x => fmul x (Fin (todenseQ B 0 0))) (sp_at A r c)))
  else if (sp_rows A =? 1) && (sp_cols A =? 1) then
    Ok (mkSp (sp_rows B) (sp_cols B)
          (fun r c =>
             option_map (fun y => fmul (Fin y) (todense A 0 0)) (sp_at B r c)))
  else
    match broadcast_dim (sp_rows A) (sp_rows B),
          broadcast_dim (sp_cols A) (sp_cols B) with
    | Some rows, Some cols =>
        Ok (mkSp rows cols
              (fun r c =>
                 if in_shape rows cols r c then
                   match sp_at A (broadcast_index (sp_rows A) r)
                                 (broadcast_index (sp_cols A) c),
                         sp_at B (broadcast_index (sp_rows B) r)
                                 (broadcast_index (sp_cols B) c) with
                   | Some x, Some y => prune (fmul x (Fin y))
                   | _, _ => None
                   end
                 else None))
    | _, _ => Raise ValueError
    end.

(** [A.multiply(B)], element-wise product of two sparse matrices: entry
    by entry for matrices of one shape, by broadcasting otherwise. *)
Definition multiply (A : spmatrix float) (B : spmatrix Q)
  : result (spmatrix float) :=
  if (sp_rows A =? sp_rows B) && (sp_cols A =? sp_cols B)
  then Ok (mkSp (sp_rows A) (sp_cols A)
             (fun r c =>
                match sp_at A r c, sp_at B r c with
                | Some x, Some y => prune (fmul x (Fin y))
                | _, _ => None
                end))
  else multiply_broadcast A B.

(** [sparse.diags(v, 0, format='csr') @ M]: row [r] of [M] scaled by
    [v[r]]. *)
Definition diags_matmul (v : nat -> float) (M : spmatrix float)
  : spmatrix float :=
  mkSp (sp_rows M) (sp_cols M)
       (fun r c => option_map (fun x => fmul (v r) x) (sp_at M r c)).

Definition row_sum (M : spmatrix float) (i : nat) : float :=
  fsum (map (todense M i) (seq 0 (sp_cols M))).

End Sparse.

Import Sparse.

(** ** Graphs *)

Module Graphs.

Definition point : Type := list Q.

(** A networkx [Graph]: the nodes in insertion order, the adjacency with
    the weight of every edge (an edge without a weight attribute counts as
    weight one), and the node attribute ["pos"]. *)
Record Graph : Type := mkGraph {
  nodes : list nat;
  adj : nat -> nat -> option Q;
  pos : nat -> option point
}.

(** [len(G)] *)
Definition order (G : Graph) : nat := List.length (nodes G).

Definition node_at (G : Graph) (i : nat) : nat := nth i (nodes G) 0%nat.

Definition has_edge (G : Graph) (u v : nat) : bool :=
  match adj G u v with Some _ => true | None => false end.

(** [G.degree[u]]: the number of edges at [u], a self-loop counted
    twice.  Weights play no part. *)
Definition degree (G : Graph) (u : nat) : nat :=
  list_sum (map (fun v => if has_edge G u v
                          then (if v =? u then 2 else 1)
                          else 0)
                (nodes G)).

(** [nx.to_scipy_sparse_array(G)]: rows and columns in node order. *)
Definition to_scipy_sparse_array (G : Graph) : spmatrix Q :=
  mkSp (order G) (order G)
       (fun i j => if in_shape (order G) (order G) i j
                   then adj G (node_at G i) (node_at G j)
                   else None).

Definition Qsum (l : list Q) : Q := fold_right Qplus 0%Q l.

(** [A.sum(axis=1)[i]] *)
Definition weighted_degree (G : Graph) (i : nat) : Q :=
  Qsum (map (todenseQ (to_scipy_sparse_array G) i) (seq 0 (order G))).

(** Entry [(i, j)] of [D - A]. *)
Definition laplacian_entry (G : Graph) (i j : nat) : Q :=
  ((if i =? j then weighted_degree G i else 0)
   - todenseQ (to_scipy_sparse_array G) i j)%Q.

(** [nx.laplacian_matrix(G)]: [D - A] with [D] the diagonal of the row
    sums of [A], a sparse difference that stores its non-zero entries
    only; it refuses a graph without nodes. *)
Definition laplacian_matrix (G : Graph) : result (spmatrix Q) :=
  if order G =? 0 then Raise NetworkXError
  else Ok (mkSp (order G) (order G)
             (fun i j => if in_shape (order G) (order G) i j
                         then pruneQ (laplacian_entry G i j)
                         else None)).

End Graphs.

Import Graphs.

(** ** LaplacianEngine *)

Open Scope py_scope.

(** [compute_laplacian(G, normalization=None)].

    [laplacian /= deg] divides a sparse matrix by a one-dimensional dense
    array.  scipy has no in-place form of it: the statement rebinds
    [laplacian] to [laplacian / deg], which scipy evaluates as
    [laplacian.multiply(1. / deg)].  The reciprocal is taken by numpy (an
    infinity for a degree of zero) and the product runs over the stored
    entries, the array broadcast as a row. *)
Definition compute_laplacian (G : Graph) (normalization : option string)
  : result (spmatrix float) :=
  L <- laplacian_matrix G ;;
  let laplacian := csr_float64 L in
  match normalization with
  | Some "rw"%string =>
      (* deg = np.array([G.degree[i] for i in G.nodes]) *)
      let deg := fun i => of_nat (degree G (node_at G i)) in
      (* laplacian /= deg *)
      Ok (multiply_row_vector laplacian (fun j => fdiv (Fin 1) (deg j)))
  | _ => Ok laplacian
  end.

(** The matrix [compute_laplacian] answers with when it does not
    normalise: [D - A] as a sparse matrix of doubles. *)
Definition unnormalised (G : Graph) : spmatrix float :=
  csr_float64
    (mkSp (order G) (order G)
       (fun i j => if in_shape (order G) (order G) i j
                   then pruneQ (laplacian_entry G i j)
                   else None)).

(** [deg_inv = 1.0 / deg; deg_inv[deg_inv == float("inf")] = 0] *)
Definition deg_inv (G : Graph) (i : nat) : float :=
  let x := fdiv (Fin 1) (of_nat (degree G (node_at G i))) in
  if feqb x PInf then Fin 0 else x.

(** [compute_connection_laplacian(G, R, normalization=None)] *)
Definition compute_connection_laplacian
  (G : Graph) (R : spmatrix Q) (normalization : option string)
  : result (spmatrix float) :=
  let n := order G in
  if n =? 0 then Raise ZeroDivisionError else
  let dim := (sp_rows R / n)%nat in
  laplacian <- compute_laplacian G None ;;
  let laplacian := kron_ones laplacian dim in
  Lc <- multiply laplacian R ;;
  match normalization with
  | Some "rw"%string =>
      (* deg_inv.repeat(dim, axis=0); Lc has n * dim rows whenever the
         product above returns, so the product with the diagonal matrix
         is defined *)
      Ok (diags_matmul (fun r => deg_inv G (r / dim)) Lc)
  | Some "sym"%string => Raise NotImplementedError
  | _ => Ok Lc
  end.

(** ** Dense arrays of reals *)

Module Dense.

(** A two-dimensional numpy array (or torch tensor) of doubles, read as
    reals. *)
Record ndarray : Type := mkArr {
  nrows : nat;
  ncols : nat;
  arr_at : nat -> nat -> R
}.

Definition Rsum (f : nat -> R) (n : nat) : R :=
  fold_right Rplus 0%R (map f (seq 0 n)).

(** Two arrays are the same when their shapes and their entries agree. *)
Definition arr_eq (A B : ndarray) : Prop :=
  nrows A = nrows B /\ ncols A = ncols B /\
  forall i j, i < nrows A -> j < ncols A -> arr_at A i j = arr_at B i j.

(** [A @ B] *)
Definition matmul (A B : ndarray) : result ndarray :=
  if ncols A =? nrows B
  then Ok (mkArr (nrows A) (ncols B)
             (fun i j => Rsum (fun k => arr_at A i k * arr_at B k j)%R
                              (ncols A)))
  else Raise ValueError.

(** [c * A] for a scalar [c] *)
Definition scale (c : R) (A : ndarray) : ndarray :=
  mkArr (nrows A) (ncols A) (fun i j => (c * arr_at A i j)%R).

(** [A / c] for a scalar [c] *)
Definition div_scalar (A : ndarray) (c : R) : ndarray :=
  mkArr (nrows A) (ncols A) (fun i j => (arr_at A i j / c)%R).

(** [A[:, :k]] *)
Definition take_cols (A : ndarray) (k : nat) : ndarray :=
  mkArr (nrows A) (Nat.min k (ncols A)) (arr_at A).

(** [np.ones([n, m])] *)
Definition ones (n m : nat) : ndarray := mkArr n m (fun _ _ => 1%R).

(** [A.reshape(r, -1)] and [A.reshape(r, c)], row-major. *)
Definition reshape (A : ndarray) (r c : nat) : ndarray :=
  mkArr r c (fun i j =>
               let f := i * c + j in
               arr_at A (f / ncols A) (f mod ncols A)).

(** numpy broadcasting of a binary operation over two 2-d arrays: along
    each axis the extents agree or one of them is one. *)
Definition compatible (a b : nat) : bool := (a =? b) || (a =? 1) || (b =? 1).

Definition bcast (a i : nat) : nat := if a =? 1 then 0 else i.

Definition broadcast2 (f : R -> R -> R) (A B : ndarray) : result ndarray :=
  if compatible (nrows A) (nrows B) && compatible (ncols A) (ncols B)
  then Ok (mkArr (if nrows A =? 1 then nrows B else nrows A)
                 (if ncols A =? 1 then ncols B else ncols A)
                 (fun i j =>
                    f (arr_at A (bcast (nrows A) i) (bcast (ncols A) j))
                      (arr_at B (bcast (nrows B) i) (bcast (ncols B) j))))
  else Raise ValueError.

(** [np.linalg.norm(A, axis=-1, keepdims=True)] *)
Definition row_norms (A : ndarray) : ndarray :=
  mkArr (nrows A) 1
        (fun i _ => sqrt (Rsum (fun j => arr_at A i j * arr_at A i j)%R
                               (ncols A))).

(** Sum over the rows of the squared entries of column [j]. *)
Definition column_sq_sum (A : ndarray) (j : nat) : R :=
  Rsum (fun i => arr_at A i j * arr_at A i j)%R (nrows A).

(** The all-zero square array and the identity. *)
Definition is_zero_square (A : ndarray) (n : nat) : Prop :=
  nrows A = n /\ ncols A = n /\
  forall i j, i < n -> j < n -> arr_at A i j = 0%R.

Definition is_identity (A : ndarray) (n : nat) : Prop :=
  nrows A = n /\ ncols A = n /\
  forall i j, i < n -> j < n ->
    arr_at A i j = if i =? j then 1%R else 0%R.

End Dense.

Import Dense.

(** ** SpectralSolver *)

(** What [compute_spectrum] is given: a scipy sparse matrix or a dense
    array. *)
Inductive matrix_arg : Type :=
| SparseArg (M : spmatrix float)
| DenseArg (rows cols : nat) (a : nat -> nat -> float).

Definition shape0 (A : matrix_arg) : nat :=
  match A with
  | SparseArg M => sp_rows M
  | DenseArg r _ _ => r
  end.

Definition issparse (A : matrix_arg) : bool :=
  match A with SparseArg _ => true | DenseArg _ _ _ => false end.

Definition spectrum : Type := (list R * ndarray)%type.

(** The numerical eigen-solver: asked for [k] eigen-pairs of [A] it
    answers with eigenvalues and eigenvectors or fails to converge. *)
Definition eigen_solver : Type := matrix_arg -> nat -> result spectrum.

Definition reduced_message : string :=
  "Number of features is greater than number of vertices. Number of features will be reduced.".

(** A computation that prints: the lines written to standard output, in
    order, and the outcome. *)
Definition printing (A : Type) : Type := (list string * result A)%type.

Section Spectrum.

Variable solver : eigen_solver.

(** [scipy.sparse.linalg.eigsh(A, k=k, which="SM")].  Its argument check:
    [k] must be positive, and smaller than the order of [A]; for [k] not
    smaller it hands a dense array over to the dense solver, which
    computes all the pairs, and refuses a sparse matrix. *)
Definition eigsh (A : matrix_arg) (k : nat) : result spectrum :=
  if k =? 0 then Raise ValueError
  else if shape0 A <=? k
       then (if issparse A then Raise TypeError else solver A (shape0 A))
       else solver A k.

(** [compute_spectrum(laplacian, n_eigenpairs=None)] *)
Definition compute_spectrum (laplacian : matrix_arg) (n_eigenpairs : option nat)
  : printing spectrum :=
  let n_eigenpairs :=
    match n_eigenpairs with
    | None => shape0 laplacian
    | Some k => k
    end in
  let '(out, n_eigenpairs) :=
    if shape0 laplacian <=? n_eigenpairs
    then ([reduced_message], shape0 laplacian)
    else ([], n_eigenpairs) in
  (out,
   r <- eigsh laplacian n_eigenpairs ;;
   let '(evals, evecs) := r in
   (* evecs[:, :n_eigenpairs] / math.sqrt(len(evecs)) *)
   let evecs := div_scalar (take_cols evecs n_eigenpairs)
                           (sqrt (INR (nrows evecs))) in
   Ok (evals, evecs)).

End Spectrum.

(** ** DiffusionEngine *)

(** A field handed to [scalar_diffusion]: a numpy array or a torch
    tensor, flat or 2-d. *)
Inductive field : Type :=
| Flat (len : nat) (v : nat -> R)          (* 1-d numpy array *)
| Arr (A : ndarray)                        (* 2-d numpy array *)
| FlatTensor (len : nat) (v : nat -> R)    (* 1-d torch tensor *)
| Tensor (A : ndarray).                    (* 2-d torch tensor *)


(** [x.unsqueeze(1)] on a torch tensor. *)
Definition unsqueeze (len : nat) (v : nat -> R) : ndarray :=
  mkArr len 1 (fun i _ => v i).

(** [if len(x.shape) == 1: x = x.unsqueeze(1)].  [unsqueeze] is a method
    of torch tensors; a numpy array has no such attribute. *)
Definition as_column (x : field) : result field :=
  match x with
  | Flat _ _ => Raise AttributeError
  | FlatTensor len v => Ok (Tensor (unsqueeze len v))
  | Arr A => Ok (Arr A)
  | Tensor A => Ok (Tensor A)
  end.

(** The [par] argument of [scalar_diffusion] ([Lc] and [L] of
    [vector_diffusion]): a sparse Laplacian, or a pair of eigenvalues and
    eigenvectors. *)
Inductive operator : Type :=
| OpMatrix (M : spmatrix R)
| OpPair (evals : list R) (evecs : ndarray).

(** [par.todense()] *)
Definition todenseR (M : spmatrix R) : ndarray :=
  mkArr (sp_rows M) (sp_cols M)
        (fun i j => match sp_at M i j with Some v => v | None => 0%R end).

Section Diffusion.

(** [scipy.linalg.expm] *)
Variable expm : ndarray -> ndarray.

(** [scalar_diffusion(x, t, method="matrix_exp", par=None)] *)
Definition scalar_diffusion
  (x : field) (t : R) (method : string) (par : option operator)
  : result ndarray :=
  x <- as_column x ;;
  if String.eqb method "matrix_exp" then
    match par with
    | Some (OpMatrix M) =>
        let par := todenseR M in
        (* expm refuses a matrix that is not square *)
        if nrows par =? ncols par
        then let E := expm (scale (- t) par) in
             (* E @ x: the product of a numpy array with a torch tensor is
                handed to torch, which refuses the numpy array *)
             match x with
             | Arr x => matmul E x
             | _ => Raise TypeError
             end
        else Raise ValueError
    | _ => Raise AttributeError          (* no [todense] *)
    end
  else if String.eqb method "spectral" then
    match par with
    | Some (OpPair evals evecs) =>
        (* x_spec = np.mm(evecs.T, x): numpy has no attribute [mm] *)
        Raise AttributeError
    | _ => Raise AssertionError
    end
  else Raise NotImplementedError.

(** The calls of [scalar_diffusion] a run of [vector_diffusion] makes, in
    order, each with the operator it was given. *)
Inductive event : Type :=
| Diffusion (par : option operator).

Definition traced (A : Type) : Type := (list event * result A)%type.

Definition tret {A : Type} (a : A) : traced A := ([], Ok a).

Definition tbind {A B : Type} (m : traced A) (k : A -> traced B) : traced B :=
  match m with
  | (tr, Ok a) => let '(tr', r) := k a in (tr ++ tr', r)
  | (tr, Raise e) => (tr, Raise e)
  end.

Definition lift {A : Type} (r : result A) : traced A := ([], r).

Definition call_scalar_diffusion
  (x : ndarray) (t : R) (method : string) (par : option operator)
  : traced ndarray :=
  ([Diffusion par], scalar_diffusion (Arr x) t method par).

(** [nd] as [vector_diffusion] reads it off [Lc]. *)
Definition blocked_dim (method : string) (Lc : operator) : result nat :=
  if String.eqb method "spectral" then
    match Lc with
    | OpPair evals _ => Ok (List.length evals)   (* Lc[0].shape[0] *)
    | OpMatrix _ => Raise TypeError              (* len() of a sparse matrix *)
    end
  else
    match Lc with
    | OpMatrix M => Ok (sp_rows M)               (* Lc.shape[0] *)
    | OpPair _ _ => Raise AttributeError
    end.

(** [n * d % nd == 0] *)
Definition size_check (n d nd : nat) : result bool :=
  if nd =? 0 then Raise ZeroDivisionError else Ok ((n * d) mod nd =? 0).

(** [vector_diffusion(x, t, Lc, L=None, method="spectral", normalise=True)] *)
Definition vector_diffusion
  (x : ndarray) (t : R) (Lc : operator) (L : option operator)
  (method : string) (normalise : bool) : traced ndarray :=
  let n := nrows x in
  let d := ncols x in
  tbind (lift (blocked_dim method Lc)) (fun nd =>
  tbind (lift (size_check n d nd)) (fun multiple =>
  if negb multiple then lift (Raise AssertionError) else
  let out := reshape x nd ((n * d) / nd) in
  tbind (call_scalar_diffusion out t method (Some Lc)) (fun out =>
  if negb (nrows out * ncols out =? n * d) then lift (Raise ValueError) else
  let out := reshape out n d in
  if normalise then
    match L with
    | None => lift (Raise AssertionError)
    | Some _ =>
        let x_abs := row_norms x in
        tbind (call_scalar_diffusion x_abs t method L) (fun out_abs =>
        tbind (call_scalar_diffusion (ones n 1) t method L) (fun ind =>
        tbind (lift (broadcast2 Rmult out out_abs)) (fun num =>
        tbind (lift (broadcast2 Rmult ind (row_norms out))) (fun den =>
        lift (broadcast2 Rdiv num den)))))
    end
  else tret out))).

End Diffusion.

(** A concrete matrix exponential: the Taylor polynomial of order [N]. *)
Fixpoint mat_pow (n : nat) (A : nat -> nat -> R) (k : nat) : nat -> nat -> R :=
  match k with
  | O => fun i j => if i =? j then 1%R else 0%R
  | S k' => fun i j => Rsum (fun l => A i l * mat_pow n A k' l j)%R n
  end.

Definition expm_taylor (N : nat) (A : ndarray) : ndarray :=
  mkArr (nrows A) (ncols A)
        (fun i j =>
           Rsum (fun k => mat_pow (nrows A) (arr_at A) k i j / INR (fact k))%R
                (S N)).

(** ** scikit-learn's input validation and distance matrix *)

Module Sklearn.

(** [check_array]: an array needs at least one row and one column. *)
Definition check_array (X : list point) : result unit :=
  match X with
  | [] => Raise ValueError
  | p :: _ => if List.length p =? 0 then Raise ValueError else Ok tt
  end.

(** [sklearn.metrics.pairwise_distances(x)] for a metric [dist]: the
    matrix of the distances between the rows of [x]. *)
Definition pairwise_distances (dist : point -> point -> Q) (x : list point)
  : result (list (list Q)) :=
  _ <- check_array x ;;
  Ok (map (fun p => map (fun q => dist p q) x) x).

End Sklearn.

Import Sklearn.

(** ** SamplingEngine *)

Module Sampling.

(** [np.zeros(n)] with one entry assigned: [a[i] = v]. *)
Fixpoint assign {A : Type} (a : list A) (i : nat) (v : A) : list A :=
  match a, i with
  | [], _ => []
  | _ :: rest, O => v :: rest
  | h :: rest, S i' => h :: assign rest i' v
  end.

Definition setitem {A : Type} (a : list A) (i : nat) (v : A)
  : result (list A) :=
  if i <? List.length a then Ok (assign a i v) else Raise IndexError.

(** [D[i, :]] *)
Definition getrow (D : list (list Q)) (i : nat) : result (list Q) :=
  match nth_error D i with
  | Some row => Ok row
  | None => Raise IndexError
  end.

Definition Qmaxb (a b : Q) : Q := if Qle_bool a b then b else a.
Definition Qminb (a b : Q) : Q := if Qle_bool a b then a else b.

(** [np.argmax(ds)]: the first index of a largest entry. *)
Fixpoint argmax_from (best : Q) (besti : nat) (i : nat) (ds : list Q) : nat :=
  match ds with
  | [] => besti
  | v :: rest =>
      if Qle_bool v best
      then argmax_from best besti (S i) rest
      else argmax_from v i (S i) rest
  end.

Definition argmax (ds : list Q) : nat :=
  match ds with
  | [] => 0
  | v :: rest => argmax_from v 0 1 rest
  end.

(** [D.max()]: refused on an array without entries. *)
Definition matrix_max (D : list (list Q)) : result Q :=
  match List.concat D with
  | [] => Raise ValueError
  | v :: rest => Ok (fold_left Qmaxb rest v)
  end.

(** [np.minimum(a, b)] *)
Fixpoint minimum (a b : list Q) : list Q :=
  match a, b with
  | x :: a', y :: b' => Qminb x y :: minimum a' b'
  | _, _ => []
  end.

Section FurthestPoint.

(** The metric of [pairwise_distances]. *)
Variable dist : point -> point -> Q.

(** The loop [for i in range(1, n)], over the indices still to visit. *)
Fixpoint sampling_loop
  (D : list (list Q)) (diam : Q) (N : option nat) (stop_crit : Q)
  (range : list nat) (perm : list nat) (lambdas : list Q) (ds : list Q)
  : list nat * list Q :=
  match range with
  | [] => (perm, lambdas)
  | i :: range' =>
      let idx := argmax ds in
      let perm := assign perm i idx in
      let lambdas := assign lambdas i (nth idx ds 0%Q) in
      let ds := minimum ds (nth idx D []) in
      let stop :=
        match N with
        | None => fltb (fdiv (Fin (nth i lambdas 0%Q)) (Fin diam))
                       (Fin stop_crit)
        | Some _ => false
        end in
      if stop
      then (firstn i perm, firstn i lambdas)
      else sampling_loop D diam N stop_crit range' perm lambdas ds
  end.

(** [furthest_point_sampling(x, N=None, stop_crit=0.1, start_idx=0)] *)
Definition furthest_point_sampling
  (x : list point) (N : option nat) (stop_crit : Q) (start_idx : nat)
  : result (list nat * option (list Q)) :=
  if Qeq_bool stop_crit 0
  then Ok (seq 0 (List.length x), None)
  else
    D <- pairwise_distances dist x ;;
    let n := match N with
             | None => List.length D
             | Some N => N
             end in
    diam <- matrix_max D ;;
    let start_idx := 5 in
    perm <- setitem (repeat 0 n) 0 start_idx ;;
    let lambdas := repeat 0%Q n in
    ds <- getrow D start_idx ;;
    let '(perm, lambdas) :=
      sampling_loop D diam N stop_crit (seq 1 (n - 1)) perm lambdas ds in
    Ok (perm, Some lambdas).

End FurthestPoint.

End Sampling.

Import Sampling.

(** ** GraphBuilder *)

Module GraphBuilder.

Section ManifoldGraph.

(** The neighbour search behind [kneighbors_graph]: the indices of the
    [k] nearest neighbours of point [i]. *)
Variable neighbours : list point -> nat -> nat -> list nat.

(** The metric of [pairwise_distances] and the exponential of [np.exp]. *)
Variable dist : point -> point -> Q.
Variable exp_ : Q -> Q.

Definition mem (i : nat) (l : list nat) : bool := existsb (Nat.eqb i) l.

(** [kneighbors_graph(X, n_neighbors, mode='connectivity',
    include_self=False)]: entry [(i, j)] is one when [j] is among the
    neighbours of [i].  It asks for at least one neighbour and, a point
    not being its own neighbour, for more points than neighbours. *)
Definition kneighbors_graph (X : list point) (n_neighbors : nat)
  : result (spmatrix Q) :=
  let n := List.length X in
  _ <- check_array X ;;
  if (n_neighbors =? 0) || (n <=? n_neighbors) then Raise ValueError
  else Ok (mkSp n n
             (fun i j =>
                if in_shape n n i j && mem j (neighbours X n_neighbors i)
                then Some 1%Q else None)).

(** [A += sparse.eye(A.shape[0])] *)
Definition add_eye (A : spmatrix Q) : spmatrix Q :=
  mkSp (sp_rows A) (sp_cols A)
       (fun i j =>
          if in_shape (sp_rows A) (sp_cols A) i j
          then pruneQ (todenseQ A i j + (if i =? j then 1 else 0))%Q
          else None).

(** [nx.from_scipy_sparse_array(A)] and [nx.from_numpy_array(A)]: nodes
    [0 .. n-1]; an undirected edge for every stored (non-zero) entry, in
    either direction.  The entries are visited row by row and a later one
    replaces the weight of an earlier one, so the entry below the diagonal
    wins. *)
Definition from_sparse_array (A : spmatrix Q) : Graph :=
  mkGraph (seq 0 (sp_rows A))
          (fun u v =>
             match sp_at A (Nat.max u v) (Nat.min u v) with
             | Some w => Some w
             | None => sp_at A (Nat.min u v) (Nat.max u v)
             end)
          (fun _ => None).

Definition affinity_matrix (X : list point) (D : list (list Q)) : spmatrix Q :=
  let n := List.length D in
  let sigma := (1 # 10)%Q in
  mkSp n n
       (fun i j =>
          if in_shape n n i j
          then let dij := nth j (nth i D []) 0%Q in
               pruneQ (exp_ (- (dij * dij) / (2 * (sigma * sigma)))%Q)
          else None).

(** [nx.set_node_attributes(G, {i: X[i] for i in G.nodes}, "pos")] *)
Definition set_pos (G : Graph) (X : list point) : result Graph :=
  if forallb (fun i => i <? List.length X) (nodes G)
  then Ok (mkGraph (nodes G) (adj G)
             (fun i => if mem i (nodes G) then nth_error X i else pos G i))
  else Raise IndexError.

(** [manifold_graph(X, typ='knn', n_neighbors=5)].  [G] is bound in the
    two branches only; with any other [typ] the first use of [G] finds it
    unbound. *)
Definition manifold_graph (X : list point) (typ : string) (n_neighbors : nat)
  : result Graph :=
  G <- (if String.eqb typ "knn" then
          A <- kneighbors_graph X n_neighbors ;;
          Ok (from_sparse_array (add_eye A))
        else if String.eqb typ "affinity" then
          D <- pairwise_distances dist X ;;
          Ok (from_sparse_array (affinity_matrix X D))
        else Raise UnboundLocalError) ;;
  set_pos G X.

End ManifoldGraph.

End GraphBuilder.

Import GraphBuilder.

(** ** Blocks of the connection data and of the connection Laplacian *)

(** Entry [(a, b)] of block [(i, j)] of an [(n d) x (n d)] matrix. *)
Definition block_entry (M : spmatrix float) (d i j a b : nat) : float :=
  todense M (i * d + a) (j * d + b).

Definition block_entryQ (R : spmatrix Q) (d i j a b : nat) : Q :=
  todenseQ R (i * d + a) (j * d + b).




Definition weight_at (G : Graph) (i j : nat) : Q :=
  todenseQ (to_scipy_sparse_array G) i j.




(** The adjacency of an undirected graph is symmetric. *)
Definition undirected (G : Graph) : Prop :=
  forall u v, adj G u v = None -> adj G v u = None.

(** ** Auxiliary notions of the statements *)

(** A request [k] that [compute_spectrum] clips for a matrix of order
    [m]: left out, or not smaller than [m]. *)
Definition clipped (m : nat) (k : option nat) : Prop :=
  match k with
  | None => True
  | Some k' => m <= k'
  end.

(** [A.T] *)
Definition transpose (A : ndarray) : ndarray :=
  mkArr (ncols A) (nrows A) (fun i j => arr_at A j i).

(** The spectral branch of [scalar_diffusion] as it would run were
    [np.mm] the matrix product ([torch.mm]): project on the eigenvectors,
    damp each mode by [exp(-evals * t)], transform back. *)
Definition spectral_branch_with_mm
  (x : ndarray) (t : R) (evals : list R) (evecs : ndarray) : result ndarray :=
  x_spec <- matmul (transpose evecs) x ;;
  let diffusion_coefs :=
    mkArr (List.length evals) 1 (fun i _ => exp (- nth i evals 0%R * t)) in
  x_diffuse_spec <- broadcast2 Rmult diffusion_coefs x_spec ;;
  matmul evecs x_diffuse_spec.

(** ** Tactics *)


(** ** Further notions of the statements *)

(** The weights of an undirected graph are the same in both directions. *)
Definition symmetric_weights (G : Graph) : Prop :=
  forall u v, adj G u v = adj G v u.

(** The sum of column [j] of a sparse matrix. *)
Definition column_sum (M : spmatrix float) (j : nat) : float :=
  fsum (map (fun i => todense M i j) (seq 0 (sp_rows M))).

(** The inner product of columns [j] and [l] of an array. *)
Definition column_dot (A : ndarray) (j l : nat) : R :=
  Rsum (fun i => arr_at A i j * arr_at A i l)%R (nrows A).

(** [a * A + b * B] for two arrays of one shape. *)
Definition lincomb (a : R) (A : ndarray) (b : R) (B : ndarray) : ndarray :=
  mkArr (nrows A) (ncols A)
        (fun i j => (a * arr_at A i j + b * arr_at B i j)%R).

(** A list of distances that never increases. *)
Fixpoint descending (l : list Q) : Prop :=
  match l with
  | a :: t => match t with
              | b :: _ => (b <= a)%Q /\ descending t
              | [] => True
              end
  | [] => True
  end.

(** A square matrix of order [m], as a list of rows. *)
Definition square_matrix (D : list (list Q)) (m : nat) : Prop :=
  List.length D = m /\ Forall (fun row => List.length row = m) D.

(** ** FrameProjector *)

(** The gauges, an array of shape [(batch, ambient, frame)]: for each
    point [b] a frame of [frame] vectors of an ambient space of dimension
    [ambient]; [g_at b i j] is coordinate [i] of the vector [j] of the
    frame at [b]. *)
Record gauge_field : Type := mkGauges {
  batch : nat;
  ambient : nat;
  frame : nat;
  g_at : nat -> nat -> nat -> R
}.

(** The einsum contractions of the module.  The second operand is given
    by its entries; its extents are those the subscripts share with the
    gauges. *)

(** [np.einsum("bij,bi->bj", gauges, x)], [x] of shape [(batch, ambient)] *)
Definition einsum_bij_bi_bj (g : gauge_field) (x : nat -> nat -> R) : ndarray :=
  mkArr (batch g) (frame g)
        (fun b j => Rsum (fun i => g_at g b i j * x b i)%R (ambient g)).

(** [np.einsum("bji,bi->bj", gauges, x)], [x] of shape [(batch, frame)] *)
Definition einsum_bji_bi_bj (g : gauge_field) (x : nat -> nat -> R) : ndarray :=
  mkArr (batch g) (ambient g)
        (fun b j => Rsum (fun i => g_at g b j i * x b i)%R (frame g)).

(** [np.einsum("bj,bij->bi", coeffs, gauges)], [coeffs] of shape
    [(batch, frame)] *)
Definition einsum_bj_bij_bi (coeffs : nat -> nat -> R) (g : gauge_field)
  : ndarray :=
  mkArr (batch g) (ambient g)
        (fun b i => Rsum (fun j => coeffs b j * g_at g b i j)%R (frame g)).

(** [project_to_manifold(x, gauges)] *)
Definition project_to_manifold (x : nat -> nat -> R) (gauges : gauge_field)
  : ndarray :=
  let coeffs := einsum_bij_bi_bj gauges x in
  einsum_bj_bij_bi (arr_at coeffs) gauges.

(** [project_to_local_frame(x, gauges, reverse=False)] *)
Definition project_to_local_frame
  (x : nat -> nat -> R) (gauges : gauge_field) (reverse : bool) : ndarray :=
  if reverse
  then einsum_bji_bi_bj gauges x
  else einsum_bij_bi_bj gauges x.

(** The frames are orthonormal: the vectors of each frame have norm one
    and are orthogonal to each other. *)
Definition orthonormal (g : gauge_field) : Prop :=
  forall b j l, b < batch g -> j < frame g -> l < frame g ->
    Rsum (fun i => g_at g b i j * g_at g b i l)%R (ambient g)
    = if j =? l then 1%R else 0%R.

(** ** Sampling from the convex hull *)

Section ConvexHull.

(** The numbers the global generator of [np.random] yields, in the order
    they are drawn. *)
Variable uniform : nat -> Q.

(** [np.random.uniform(size=m)] with the generator at position [pos]. *)
Definition draw (pos m : nat) : list Q := map uniform (seq pos m).

(** [np.sum(points.T * barycentric_coords, axis=1)[c]] *)
Definition weighted_sum (points : list point) (w : list float) (c : nat)
  : float :=
  fsum (map (fun pw => fmul (Fin (nth c (fst pw) 0%Q)) (snd pw))
            (combine points w)).

(** One round of the loop: the coordinates are divided by their sum and
    weigh the points. *)
Definition convex_sample (points : list point) (barycentric_coords : list Q)
  : list float :=
  let total := Qsum barycentric_coords in
  let barycentric_coords :=
    map (fun u => fdiv (Fin u) (Fin total)) barycentric_coords in
  map (weighted_sum points barycentric_coords)
      (seq 0 (List.length (hd [] points))).

(** [sample_from_convex_hull(points, n=10)] with the generator at
    position [pos]: the samples and the position of the generator after
    the call. *)
Fixpoint sample_from_convex_hull (points : list point) (n : nat) (pos : nat)
  : list (list float) * nat :=
  match n with
  | O => ([], pos)
  | S n' =>
      let barycentric_coords := draw pos (List.length points) in
      let current_point := convex_sample points barycentric_coords in
      let '(samples, pos') :=
        sample_from_convex_hull points n' (pos + List.length points) in
      (current_point :: samples, pos')
  end.

End ConvexHull.

(** The sum over the points of coordinate [c] times the share [u / T] of
    the number drawn for the point, as a rational. *)
Fixpoint weighted_sumQ (c : nat) (T : Q) (points : list point) (coords : list Q)
  : Q :=
  match points, coords with
  | p :: ps, u :: us => (nth c p 0 * (u / T) + weighted_sumQ c T ps us)%Q
  | _, _ => 0%Q
  end.

(** ** Example inputs *)

Module Examples.

(** A symmetric adjacency from a list of weighted edges. *)
Definition sym_adj (edges : list (nat * nat * Q)) (u v : nat) : option Q :=
  match find (fun e => let '(a, b, _) := e in
                       ((a =? u) && (b =? v)) || ((a =? v) && (b =? u)))
             edges with
  | Some (_, _, w) => Some w
  | None => None
  end.

Definition no_pos : nat -> option point := fun _ => None.

(** The path 0 - 1 - 2 with unit weights. *)
Definition path3 : Graph :=
  mkGraph [0; 1; 2] (sym_adj [(0, 1, 1%Q); (1, 2, 1%Q)]) no_pos.

(** One edge 0 - 1 and an isolated node 2. *)
Definition edge_and_isolated : Graph :=
  mkGraph [0; 1; 2] (sym_adj [(0, 1, 1%Q)]) no_pos.

(** Scalar transport ([d = 1]) for [edge_and_isolated]: ones on the
    diagonal and on the edge. *)
Definition transport_edge_and_isolated : spmatrix Q :=
  mkSp 3 3 (fun i j =>
              if in_shape 3 3 i j &&
                 ((i =? j) || has_edge edge_and_isolated i j)
              then Some 1%Q else None).

End Examples.

Import Examples.

Module SpectrumExamples.

(** The cycle 0 - 1 - 2 - 3 - 0 with unit weights. *)
Definition cycle4 : Graph :=
  mkGraph [0; 1; 2; 3]
          (sym_adj [(0, 1, 1%Q); (1, 2, 1%Q); (2, 3, 1%Q); (3, 0, 1%Q)])
          no_pos.

(** An eigen-solver answering with the eigenvalue zero and the constant
    unit vector [(1/2, 1/2, 1/2, 1/2)], an eigen-pair of the Laplacian of
    every graph on four nodes. *)
Definition constant_pair : spectrum :=
  ([0%R], mkArr 4 1 (fun _ _ => (1 / 2)%R)).

Definition constant_solver : eigen_solver := fun _ _ => Ok constant_pair.

End SpectrumExamples.

Import SpectrumExamples.

Module DiffusionExamples.

(** The field with the single vector [(1, 2)] at each of two nodes. *)
Definition field_2x2 : ndarray :=
  mkArr 2 2 (fun _ j => if j =? 0 then 1%R else 2%R).

(** The sparse operator of order [n] without stored entries: the zero
    matrix. *)
Definition zero_operator (n : nat) : operator :=
  OpMatrix (mkSp n n (fun _ _ => None)).

(** The all-ones field on four nodes and the pair returned for the
    4-cycle by [compute_spectrum] with the solver [constant_solver]. *)
Definition ones_4 : ndarray := ones 4 1.

Definition scaled_constant_pair : spectrum :=
  ([0%R], mkArr 4 1 (fun _ _ => (1 / 4)%R)).

End DiffusionExamples.

Import DiffusionExamples.

Module SamplingExamples.

(** Points on a line, with the distance [|a - b|] between them. *)
Definition line (coordinates : list Z) : list point :=
  map (fun z => [inject_Z z]) coordinates.

Definition line_dist (p q : point) : Q :=
  Qabs (nth 0 p 0%Q - nth 0 q 0%Q)%Q.

Definition six_points : list point := line [0; 1; 2; 3; 4; 10]%Z.

Definition three_points : list point := line [0; 1; 2]%Z.

(** A neighbour search for the examples: the first [k] other indices. *)
Definition first_others (X : list point) (k i : nat) : list nat :=
  firstn k (filter (fun j => negb (j =? i)) (seq 0 (List.length X))).

Definition unit_exp : Q -> Q := fun _ => 1%Q.

End SamplingExamples.

Import SamplingExamples.

Module MoreExamples.

(** Eight points on a line. *)
Definition eight_points : list point := line [0; 1; 2; 3; 4; 10; 5; 7]%Z.

End MoreExamples.

Import MoreExamples.

Module FrameExamples.

(** One point of the plane with the first axis as its frame. *)
Definition axis_gauge : gauge_field :=
  mkGauges 1 2 1 (fun _ i _ => if i =? 0 then 1%R else 0%R).

(** The vector [(3, 4)] at that point, and the local coordinate [7]. *)
Definition vector_3_4 : nat -> nat -> R :=
  fun _ i => if i =? 0 then 3%R else 4%R.

Definition coordinate_7 : nat -> nat -> R := fun _ _ => 7%R.

(** A stream of draws: a quarter and three quarters in turn. *)
Definition alternating_draws : nat -> Q :=
  fun k => if Nat.even k then (1 # 4)%Q else (3 # 4)%Q.

End FrameExamples.

Import FrameExamples.

(* ================================================================== *)
(** * Part II.  Properties                                             *)
(* ================================================================== *)

(** ** Doubles *)

Lemma feq_refl (x : float) : x =f= x.
Proof. destruct x; simpl; auto; reflexivity. Qed.

Lemma feq_sym (x y : float) : x =f= y -> y =f= x.
Proof. destruct x, y; simpl; auto; intro H; symmetry; exact H. Qed.

Lemma feq_trans (x y z : float) : x =f= y -> y =f= z -> x =f= z.
Proof.
  destruct x, y, z; simpl; auto; try contradiction.
  intros H1 H2; rewrite H1; exact H2.
Qed.

#[export] Instance feq_Equivalence : Equivalence F64.feq.
Proof.
  split.
  - exact feq_refl.
  - exact feq_sym.
  - exact feq_trans.
Qed.

(** ** Index arithmetic of the block layout *)

Lemma block_div (i a d : nat) : a < d -> (i * d + a) / d = i.
Proof.
  intro Ha.
  symmetry. apply Nat.div_unique with a; lia.
Qed.

Lemma block_in_range (n d i a : nat) : i < n -> a < d -> i * d + a < n * d.
Proof. intros Hi Ha. nia. Qed.

Lemma in_shape_true (r c i j : nat) : i < r -> j < c -> in_shape r c i j = true.
Proof.
  intros Hi Hj. unfold in_shape.
  apply andb_true_iff; split; apply Nat.ltb_lt; assumption.
Qed.

(** ** Sums *)

Lemma Qsum_ext (f g : nat -> Q) (l : list nat) :
  (forall i, In i l -> (f i == g i)%Q) ->
  (Qsum (map f l) == Qsum (map g l))%Q.
Proof.
  induction l as [|x l IH]; intro H; simpl.
  - reflexivity.
  - rewrite (H x (or_introl eq_refl)), IH.
    + reflexivity.
    + intros i Hi. apply H. right; exact Hi.
Qed.

Lemma Qsum_minus (f g : nat -> Q) (l : list nat) :
  (Qsum (map (fun j => f j - g j) l) == Qsum (map f l) - Qsum (map g l))%Q.
Proof.
  induction l as [|x l IH]; simpl.
  - ring.
  - rewrite IH. ring.
Qed.

Lemma Qsum_zero (l : list nat) : (Qsum (map (fun _ => 0%Q) l) == 0)%Q.
Proof.
  induction l as [|x l IH]; simpl.
  - reflexivity.
  - rewrite IH. ring.
Qed.

(** The sum of a row of a diagonal matrix is its diagonal entry. *)
Lemma Qsum_delta (i : nat) (s : Q) (start len : nat) :
  (Qsum (map (fun j => if i =? j then s else 0%Q) (seq start len)) ==
   if (start <=? i) && (i <? start + len) then s else 0)%Q.
Proof.
  revert start.
  induction len as [|len IH]; intro start; simpl.
  - replace (i <? start + 0) with (i <? start) by (f_equal; lia).
    destruct (start <=? i) eqn:E1, (i <? start) eqn:E2; simpl; try reflexivity.
    apply Nat.leb_le in E1. apply Nat.ltb_lt in E2. lia.
  - rewrite IH.
    destruct (i =? start) eqn:E.
    + apply Nat.eqb_eq in E. subst i.
      replace (S start <=? start) with false by (symmetry; apply Nat.leb_gt; lia).
      replace (start <=? start) with true by (symmetry; apply Nat.leb_le; lia).
      replace (start <? start + S len) with true
        by (symmetry; apply Nat.ltb_lt; lia).
      simpl. ring.
    + apply Nat.eqb_neq in E.
      destruct (S start <=? i) eqn:E1.
      * apply Nat.leb_le in E1.
        replace (start <=? i) with true by (symmetry; apply Nat.leb_le; lia).
        replace (i <? S start + len) with (i <? start + S len)
          by (f_equal; lia).
        simpl. ring.
      * apply Nat.leb_gt in E1.
        replace (start <=? i) with false by (symmetry; apply Nat.leb_gt; lia).
        simpl. ring.
Qed.

Lemma fsum_feq (f : nat -> float) (g : nat -> Q) (l : list nat) :
  (forall j, In j l -> f j =f= Fin (g j)) ->
  fsum (map f l) =f= Fin (Qsum (map g l)).
Proof.
  induction l as [|x l IH]; intro H; simpl.
  - reflexivity.
  - assert (Hx := H x (or_introl eq_refl)).
    assert (Hl : fsum (map f l) =f= Fin (Qsum (map g l))).
    { apply IH. intros j Hj. apply H. right; exact Hj. }
    unfold fsum in *. simpl.
    destruct (f x); simpl in Hx; try contradiction.
    destruct (fold_right fadd (Fin 0) (map f l)); simpl in Hl; try contradiction.
    simpl. rewrite Hx, Hl. reflexivity.
Qed.

(** ** The scalar Laplacian *)

Lemma laplacian_matrix_ok (G : Graph) :
  0 < order G ->
  laplacian_matrix G =
  Ok (mkSp (order G) (order G)
        (fun i j => if in_shape (order G) (order G) i j
                    then pruneQ (laplacian_entry G i j)
                    else None)).
Proof.
  intro Hn. unfold laplacian_matrix.
  destruct (order G =? 0) eqn:E; [apply Nat.eqb_eq in E; lia | reflexivity].
Qed.

Lemma compute_laplacian_none (G : Graph) :
  0 < order G -> compute_laplacian G None = Ok (unnormalised G).
Proof.
  intro Hn. unfold compute_laplacian.
  rewrite (laplacian_matrix_ok G Hn). reflexivity.
Qed.

Lemma compute_laplacian_rw (G : Graph) :
  0 < order G ->
  compute_laplacian G (Some "rw"%string) =
  Ok (multiply_row_vector (unnormalised G)
        (fun j => fdiv (Fin 1) (of_nat (degree G (node_at G j))))).
Proof.
  intro Hn. unfold compute_laplacian.
  rewrite (laplacian_matrix_ok G Hn). reflexivity.
Qed.

Lemma unnormalised_dense (G : Graph) (i j : nat) :
  i < order G -> j < order G ->
  todense (unnormalised G) i j =f= Fin (laplacian_entry G i j).
Proof.
  intros Hi Hj. unfold todense, unnormalised, csr_float64; simpl.
  rewrite (in_shape_true _ _ _ _ Hi Hj).
  unfold pruneQ.
  destruct (Qeq_bool (laplacian_entry G i j) 0) eqn:E; simpl.
  - apply Qeq_bool_eq in E. symmetry; exact E.
  - reflexivity.
Qed.

(** [L = D - A]: the entry is the row sum of [A] on the diagonal, minus
    the entry of [A]. *)
Lemma laplacian_entry_D_minus_A (G : Graph) (i j : nat) :
  (laplacian_entry G i j ==
   (if i =? j then weighted_degree G i else 0)
   - todenseQ (to_scipy_sparse_array G) i j)%Q.
Proof. reflexivity. Qed.

Lemma laplacian_row_sum_zero (G : Graph) (i : nat) :
  i < order G ->
  (Qsum (map (laplacian_entry G i) (seq 0 (order G))) == 0)%Q.
Proof.
  intro Hi.
  unfold laplacian_entry.
  rewrite (Qsum_minus (fun j => if i =? j then weighted_degree G i else 0%Q)
                      (todenseQ (to_scipy_sparse_array G) i)).
  rewrite Qsum_delta.
  replace ((0 <=? i) && (i <? 0 + order G)) with true.
  - unfold weighted_degree. ring.
  - symmetry. apply andb_true_iff; split.
    + apply Nat.leb_le; lia.
    + apply Nat.ltb_lt; lia.
Qed.

(** **** X1 -- without normalisation [compute_laplacian] returns [D - A]
    for every graph with a node, and every row of it sums to zero. *)
Lemma compute_laplacian_none_row_sum (G : Graph) (i : nat) :
  0 < order G -> i < order G ->
  exists M, compute_laplacian G None = Ok M /\
            sp_rows M = order G /\ sp_cols M = order G /\
            (forall j, j < order G ->
               todense M i j =f= Fin (laplacian_entry G i j)) /\
            row_sum M i =f= Fin 0.
Proof.
  intros Hn Hi. exists (unnormalised G).
  split; [apply compute_laplacian_none; exact Hn|].
  split; [reflexivity|]. split; [reflexivity|].
  split.
  - intros j Hj. apply unnormalised_dense; assumption.
  - unfold row_sum.
    transitivity (Fin (Qsum (map (laplacian_entry G i) (seq 0 (order G))))).
    + apply fsum_feq. intros j Hj. apply in_seq in Hj.
      apply unnormalised_dense; [exact Hi | simpl in Hj; lia].
    + simpl. apply laplacian_row_sum_zero. exact Hi.
Qed.

(** With ["rw"] the stored entry at [(i, j)] is the Laplacian entry
    divided by the degree of node [j], the node of its column. *)
Lemma compute_laplacian_rw_entry (G : Graph) (i j : nat) :
  0 < order G ->
  exists M, compute_laplacian G (Some "rw"%string) = Ok M /\
            sp_at M i j =
            option_map
              (fun x => fmul x (fdiv (Fin 1) (of_nat (degree G (node_at G j)))))
              (sp_at (unnormalised G) i j).
Proof.
  intro Hn. eexists. split.
  - apply compute_laplacian_rw; exact Hn.
  - reflexivity.
Qed.

(** **** C2 -- at the path 0 - 1 - 2, ["rw"] divides the entry [(0, 1)] by
    the degree of node 1 (its column), not by the degree of node 0 (its
    row): row 0 of the result is [1, -1/2, 0] and sums to [1/2], not to
    zero. *)
Theorem C2_rw_scales_columns_path3 :
  exists M, compute_laplacian path3 (Some "rw"%string) = Ok M /\
            degree path3 0 = 1 /\ degree path3 1 = 2 /\
            todense M 0 0 =f= Fin 1 /\
            todense M 0 1 =f= Fin (- 1 # 2) /\
            todense M 0 2 =f= Fin 0 /\
            row_sum M 0 =f= Fin (1 # 2) /\
            ~ row_sum M 0 =f= Fin 0.
Proof.
  eexists. split; [apply compute_laplacian_rw; vm_compute; lia|].
  repeat split; try (vm_compute; reflexivity).
  vm_compute. discriminate.
Qed.

(** ** Isolated nodes *)

Lemma list_sum_zero (l : list nat) :
  list_sum l = 0 -> forall x, In x l -> x = 0.
Proof.
  induction l as [|y l IH]; simpl; intros H x Hx.
  - contradiction.
  - destruct Hx as [-> | Hx]; [lia | apply IH; [lia | exact Hx]].
Qed.

Lemma degree_zero_no_edge (G : Graph) (u v : nat) :
  degree G u = 0 -> In v (nodes G) -> adj G u v = None.
Proof.
  intros Hd Hv. unfold degree in Hd.
  assert (H := list_sum_zero _ Hd
                 (if has_edge G u v then if v =? u then 2 else 1 else 0)).
  assert (Hin : In (if has_edge G u v then if v =? u then 2 else 1 else 0)
                   (map (fun v => if has_edge G u v
                                  then if v =? u then 2 else 1 else 0)
                        (nodes G))).
  { apply in_map_iff. exists v. split; [reflexivity | exact Hv]. }
  specialize (H Hin). unfold has_edge in H.
  destruct (adj G u v); [destruct (v =? u); discriminate | reflexivity].
Qed.

Lemma node_at_In (G : Graph) (j : nat) : j < order G -> In (node_at G j) (nodes G).
Proof. intro Hj. unfold node_at. apply nth_In. exact Hj. Qed.

Lemma isolated_adjacency_row (G : Graph) (i j : nat) :
  degree G (node_at G i) = 0 ->
  (todenseQ (to_scipy_sparse_array G) i j == 0)%Q.
Proof.
  intro Hd. unfold todenseQ, to_scipy_sparse_array; simpl.
  destruct (in_shape (order G) (order G) i j) eqn:E; [|reflexivity].
  unfold in_shape in E. apply andb_true_iff in E. destruct E as [_ Hj].
  apply Nat.ltb_lt in Hj.
  rewrite (degree_zero_no_edge G _ _ Hd (node_at_In G j Hj)). reflexivity.
Qed.

Lemma isolated_weighted_degree (G : Graph) (i : nat) :
  degree G (node_at G i) = 0 -> (weighted_degree G i == 0)%Q.
Proof.
  intro Hd. unfold weighted_degree.
  rewrite (Qsum_ext _ (fun _ => 0%Q)).
  - apply Qsum_zero.
  - intros j _. apply isolated_adjacency_row. exact Hd.
Qed.

Lemma isolated_laplacian_row (G : Graph) (i j : nat) :
  degree G (node_at G i) = 0 -> (laplacian_entry G i j == 0)%Q.
Proof.
  intro Hd. unfold laplacian_entry.
  rewrite (isolated_adjacency_row G i j Hd).
  destruct (i =? j).
  - rewrite (isolated_weighted_degree G i Hd). ring.
  - ring.
Qed.

(** The row of an isolated node holds no stored entry. *)
Lemma isolated_row_not_stored (G : Graph) (i j : nat) :
  degree G (node_at G i) = 0 -> sp_at (unnormalised G) i j = None.
Proof.
  intro Hd. unfold unnormalised, csr_float64; simpl.
  destruct (in_shape (order G) (order G) i j); [|reflexivity].
  unfold pruneQ.
  rewrite (Qeq_eq_bool _ _ (isolated_laplacian_row G i j Hd)). reflexivity.
Qed.

Lemma of_nat_zero_iff (n : nat) :
  Qeq_bool (inject_Z (Z.of_nat n)) 0 = true <-> n = 0.
Proof.
  split.
  - intro H. apply Qeq_bool_eq in H. unfold Qeq in H; simpl in H. lia.
  - intros ->. reflexivity.
Qed.

(** The guarded inverse degree is finite for every node, and zero for a
    node of degree zero. *)
Lemma deg_inv_finite (G : Graph) (i : nat) : is_finite (deg_inv G i) = true.
Proof.
  unfold deg_inv, of_nat; simpl.
  destruct (Qeq_bool (inject_Z (Z.of_nat (degree G (node_at G i)))) 0);
    reflexivity.
Qed.

Lemma deg_inv_isolated (G : Graph) (i : nat) :
  degree G (node_at G i) = 0 -> deg_inv G i = Fin 0.
Proof.
  intro Hd. unfold deg_inv. rewrite Hd. reflexivity.
Qed.

Lemma deg_inv_positive (G : Graph) (i : nat) :
  degree G (node_at G i) <> 0 ->
  deg_inv G i = Fin (1 / inject_Z (Z.of_nat (degree G (node_at G i)))).
Proof.
  intro Hd. unfold deg_inv, of_nat; simpl.
  destruct (Qeq_bool (inject_Z (Z.of_nat (degree G (node_at G i)))) 0) eqn:E.
  - apply of_nat_zero_iff in E. contradiction.
  - reflexivity.
Qed.

(** ** The connection Laplacian *)

Section ConnectionLaplacian.

Variable G : Graph.
Variable R : spmatrix Q.
Variable d : nat.

Hypothesis order_pos : 0 < order G.
Hypothesis R_rows : sp_rows R = order G * d.
Hypothesis R_cols : sp_cols R = order G * d.

Lemma dim_of_R : sp_rows R / order G = d.
Proof. rewrite R_rows, Nat.mul_comm. apply Nat.div_mul. lia. Qed.

(** The unnormalised connection Laplacian, entry by entry. *)
Lemma connection_laplacian_none :
  exists Lc,
    compute_connection_laplacian G R None = Ok Lc /\
    sp_rows Lc = order G * d /\ sp_cols Lc = order G * d /\
    forall r c,
      sp_at Lc r c =
      match sp_at (kron_ones (unnormalised G) d) r c, sp_at R r c with
      | Some x, Some y => prune (fmul x (Fin y))
      | _, _ => None
      end.
Proof.
  unfold compute_connection_laplacian.
  destruct (order G =? 0) eqn:E; [apply Nat.eqb_eq in E; lia|].
  rewrite (compute_laplacian_none G order_pos). simpl.
  rewrite dim_of_R. unfold multiply. simpl.
  rewrite R_rows, R_cols, !Nat.eqb_refl. simpl.
  eexists. split; [reflexivity|]. simpl.
  repeat split; reflexivity.
Qed.

(** With ["rw"], row [r] of it is scaled by the guarded inverse degree of
    the node the row belongs to. *)
Lemma connection_laplacian_rw :
  exists Lc Lrw,
    compute_connection_laplacian G R None = Ok Lc /\
    compute_connection_laplacian G R (Some "rw"%string) = Ok Lrw /\
    sp_rows Lrw = order G * d /\ sp_cols Lrw = order G * d /\
    forall r c,
      sp_at Lrw r c = option_map (fmul (deg_inv G (r / d))) (sp_at Lc r c).
Proof.
  unfold compute_connection_laplacian.
  destruct (order G =? 0) eqn:E; [apply Nat.eqb_eq in E; lia|].
  rewrite (compute_laplacian_none G order_pos). simpl.
  rewrite dim_of_R. unfold multiply. simpl.
  rewrite R_rows, R_cols, !Nat.eqb_refl. simpl.
  eexists. eexists. split; [reflexivity|]. split; [reflexivity|]. simpl.
  repeat split; reflexivity.
Qed.

Lemma kron_unnormalised_entry (i j a b : nat) :
  i < order G -> j < order G -> a < d -> b < d ->
  sp_at (kron_ones (unnormalised G) d) (i * d + a) (j * d + b) =
  option_map (fun q => Fin (q * 1)) (pruneQ (laplacian_entry G i j)).
Proof.
  intros Hi Hj Ha Hb. unfold kron_ones, unnormalised, csr_float64; simpl.
  rewrite (in_shape_true _ _ _ _ (block_in_range _ _ _ _ Hi Ha)
                                 (block_in_range _ _ _ _ Hj Hb)).
  rewrite !block_div by assumption.
  rewrite (in_shape_true _ _ _ _ Hi Hj).
  destruct (pruneQ (laplacian_entry G i j)); reflexivity.
Qed.

(** Block [(i, j)] of the connection Laplacian is [L(i, j)] times block
    [(i, j)] of [R]. *)
Lemma connection_block_entry (Lc : spmatrix float) (i j a b : nat) :
  compute_connection_laplacian G R None = Ok Lc ->
  i < order G -> j < order G -> a < d -> b < d ->
  todense Lc (i * d + a) (j * d + b) =f=
  Fin (laplacian_entry G i j * todenseQ R (i * d + a) (j * d + b)).
Proof.
  intros HLc Hi Hj Ha Hb.
  destruct connection_laplacian_none as (Lc' & Heq & _ & _ & Hat).
  rewrite Heq in HLc. injection HLc as <-.
  unfold todense, todenseQ. rewrite Hat.
  rewrite (kron_unnormalised_entry i j a b Hi Hj Ha Hb).
  unfold pruneQ.
  destruct (Qeq_bool (laplacian_entry G i j) 0) eqn:E; simpl.
  - apply Qeq_bool_eq in E. rewrite E. ring.
  - destruct (sp_at R (i * d + a) (j * d + b)) as [y|]; simpl.
    + unfold prune; simpl.
      destruct (Qeq_bool (laplacian_entry G i j * 1 * y) 0) eqn:E'; simpl.
      * apply Qeq_bool_eq in E'. rewrite <- E'. ring.
      * ring.
    + ring.
Qed.

(** Every stored entry of the unnormalised connection Laplacian is a
    finite number. *)
Lemma connection_entries_finite (Lc : spmatrix float) (r c : nat) :
  compute_connection_laplacian G R None = Ok Lc ->
  is_finite (todense Lc r c) = true.
Proof.
  intro HLc.
  destruct connection_laplacian_none as (Lc' & Heq & _ & _ & Hat).
  rewrite Heq in HLc. injection HLc as <-.
  unfold todense. rewrite Hat.
  unfold kron_ones, unnormalised, csr_float64; simpl.
  destruct (in_shape (order G * d) (order G * d) r c); [|reflexivity].
  destruct (in_shape (order G) (order G) (r / d) (c / d)); [|reflexivity].
  destruct (pruneQ (laplacian_entry G (r / d) (c / d))); [|reflexivity].
  simpl. destruct (sp_at R r c) as [y|]; [|reflexivity].
  unfold prune; simpl.
  destruct (Qeq_bool (q * 1 * y) 0); reflexivity.
Qed.

(** With ["rw"] every entry stays finite, and the block-row of a node of
    degree zero is zero. *)
Lemma connection_rw_finite (Lrw : spmatrix float) (r c : nat) :
  compute_connection_laplacian G R (Some "rw"%string) = Ok Lrw ->
  is_finite (todense Lrw r c) = true.
Proof.
  intro H.
  destruct connection_laplacian_rw as (Lc & Lrw' & H0 & H1 & _ & _ & Hat).
  rewrite H1 in H. injection H as <-.
  assert (Hf := connection_entries_finite Lc r c H0).
  unfold todense in *. rewrite Hat.
  destruct (sp_at Lc r c) as [x|]; simpl; [|reflexivity].
  assert (Hd := deg_inv_finite G (r / d)).
  destruct (deg_inv G (r / d)), x; simpl in *; try discriminate; reflexivity.
Qed.

Lemma connection_rw_isolated_row (Lrw : spmatrix float) (i a c : nat) :
  compute_connection_laplacian G R (Some "rw"%string) = Ok Lrw ->
  degree G (node_at G i) = 0 -> a < d ->
  todense Lrw (i * d + a) c =f= Fin 0.
Proof.
  intros H Hdeg Ha.
  destruct connection_laplacian_rw as (Lc & Lrw' & H0 & H1 & _ & _ & Hat).
  rewrite H1 in H. injection H as <-.
  assert (Hf := connection_entries_finite Lc (i * d + a) c H0).
  unfold todense in *. rewrite Hat.
  rewrite (block_div i a d Ha), (deg_inv_isolated G i Hdeg).
  destruct (sp_at Lc (i * d + a) c) as [x|]; simpl; [|reflexivity].
  destruct x; simpl in *; try discriminate. ring.
Qed.

End ConnectionLaplacian.

(** Whatever the shape of [R], the element-wise product that returns has
    as many rows as the degrees repeated [dim] times: the product with
    the diagonal matrix of the ["rw"] normalisation is defined. *)
Lemma connection_product_rows
  (L : spmatrix float) (R : spmatrix Q) (n : nat) (Lc : spmatrix float) :
  0 < n -> sp_rows L = n -> sp_cols L = n ->
  multiply (kron_ones L (sp_rows R / n)) R = Ok Lc ->
  sp_rows Lc = n * (sp_rows R / n).
Proof.
  intros Hn Hr Hc. set (d := sp_rows R / n).
  assert (Hone : n * d = 1 -> sp_rows R = 1).
  { intro H. apply Nat.eq_mul_1 in H. destruct H as [Hn1 Hd1].
    unfold d in Hd1. rewrite Hn1, Nat.div_1_r in Hd1. exact Hd1. }
  unfold multiply, multiply_broadcast, broadcast_dim.
  cbn [kron_ones sp_rows sp_cols]. rewrite Hr, Hc.
  destruct ((n * d =? sp_rows R) && (n * d =? sp_cols R));
    [intro H; injection H as <-; cbn [sp_rows]; lia|].
  destruct ((sp_rows R =? 1) && (sp_cols R =? 1));
    [intro H; injection H as <-; cbn [sp_rows]; lia|].
  destruct (n * d =? 1) eqn:E1.
  { apply Nat.eqb_eq in E1. cbn [andb].
    intro H. injection H as <-. cbn [sp_rows]. rewrite (Hone E1). symmetry. exact E1. }
  cbn [andb].
  destruct (n * d =? sp_rows R) eqn:E2;
    [|destruct (sp_rows R =? 1); [|discriminate]];
    (destruct (n * d =? sp_cols R);
       [|destruct (sp_cols R =? 1); [|discriminate]]);
    intro H; injection H as <-; cbn [sp_rows]; lia.
Qed.

(** ** C1: the blocks of the unnormalised connection Laplacian *)







Lemma order_edge_and_isolated : 0 < order edge_and_isolated.
Proof. vm_compute. lia. Qed.



(** ** C5: isolated nodes under ["rw"] *)

Lemma multiply_row_vector_at (M : spmatrix float) (v : nat -> float) (i j : nat) :
  sp_at (multiply_row_vector M v) i j =
  option_map (fun x => fmul x (v j)) (sp_at M i j).
Proof. reflexivity. Qed.

(** **** C5 -- for a graph with a node of degree zero, in row [i]:
    [compute_laplacian(G, "rw")] returns a matrix whose row [i] holds no
    stored entry, so the row is zero; and in
    [compute_connection_laplacian(G, R, "rw")] the factor that scales
    block-row [i] is zero, every factor is finite, the block-row of the
    result is zero and no entry of the result is an infinity or a NaN. *)
Theorem C5_isolated_node_rw (G : Graph) (R : spmatrix Q) (d i : nat) :
  sp_rows R = order G * d -> sp_cols R = order G * d ->
  i < order G -> degree G (node_at G i) = 0 ->
  (exists M,
     compute_laplacian G (Some "rw"%string) = Ok M /\
     (forall j, sp_at M i j = None) /\
     (forall j, todense M i j = Fin 0)) /\
  deg_inv G i = Fin 0 /\
  (forall k, is_finite (deg_inv G k) = true) /\
  (exists Lrw,
     compute_connection_laplacian G R (Some "rw"%string) = Ok Lrw /\
     (forall a c, a < d -> todense Lrw (i * d + a) c =f= Fin 0) /\
     (forall r c, is_finite (todense Lrw r c) = true)).
Proof.
  intros Hr Hc Hi Hdeg.
  assert (Hn : 0 < order G) by lia.
  split.
  { eexists. split; [apply compute_laplacian_rw; exact Hn|].
    assert (Hrow : forall j,
               sp_at (multiply_row_vector (unnormalised G)
                        (fun j => fdiv (Fin 1)
                                    (of_nat (degree G (node_at G j))))) i j
               = None).
    { intro j. rewrite multiply_row_vector_at.
      rewrite (isolated_row_not_stored G i j Hdeg). reflexivity. }
    split; [exact Hrow|].
    intro j. unfold todense. rewrite Hrow. reflexivity. }
  split; [apply deg_inv_isolated; exact Hdeg|].
  split; [intro k; apply deg_inv_finite|].
  destruct (connection_laplacian_rw G R d Hn Hr Hc)
    as (Lc & Lrw & _ & Hrw & _ & _ & _).
  exists Lrw. split; [exact Hrw|]. split.
  - intros a c Ha.
    apply (connection_rw_isolated_row G R d Hn Hr Hc Lrw i a c Hrw Hdeg Ha).
  - intros r c.
    apply (connection_rw_finite G R d Hn Hr Hc Lrw r c Hrw).
Qed.

(** C5 at the graph with the edge 0 - 1 and the isolated node 2. *)
Lemma C5_isolated_node_rw_witness :
  (exists M,
     compute_laplacian edge_and_isolated (Some "rw"%string) = Ok M /\
     (forall j, sp_at M 2 j = None) /\
     (forall j, todense M 2 j = Fin 0)) /\
  deg_inv edge_and_isolated 2 = Fin 0 /\
  (forall k, is_finite (deg_inv edge_and_isolated k) = true) /\
  (exists Lrw,
     compute_connection_laplacian
       edge_and_isolated transport_edge_and_isolated (Some "rw"%string)
     = Ok Lrw /\
     (forall a c, a < 1 -> todense Lrw (2 * 1 + a) c =f= Fin 0) /\
     (forall r c, is_finite (todense Lrw r c) = true)).
Proof.
  apply (C5_isolated_node_rw edge_and_isolated transport_edge_and_isolated 1 2).
  - reflexivity.
  - reflexivity.
  - vm_compute. lia.
  - reflexivity.
Defined.

(** In an undirected graph the column of a node of degree zero holds no
    stored entry of the adjacency matrix. *)
Lemma isolated_adjacency_column (G : Graph) (i j : nat) :
  undirected G -> i < order G ->
  degree G (node_at G j) = 0 ->
  (todenseQ (to_scipy_sparse_array G) i j == 0)%Q.
Proof.
  intros Hsym Hi Hd. unfold todenseQ, to_scipy_sparse_array; simpl.
  destruct (in_shape (order G) (order G) i j) eqn:E; [|reflexivity].
  rewrite (Hsym _ _ (degree_zero_no_edge G _ _ Hd (node_at_In G i Hi))).
  reflexivity.
Qed.

(** **** X21 -- in an undirected graph no entry at all of
    [compute_laplacian(G, "rw")] is an infinity or a NaN: the column of a
    node of degree zero holds no stored entry either. *)
Lemma compute_laplacian_rw_finite (G : Graph) (M : spmatrix float) (i j : nat) :
  undirected G ->
  compute_laplacian G (Some "rw"%string) = Ok M ->
  is_finite (todense M i j) = true.
Proof.
  intros Hsym HM.
  destruct (Nat.eq_dec (order G) 0) as [Hz | Hnz].
  { unfold compute_laplacian, laplacian_matrix in HM.
    rewrite Hz in HM. simpl in HM. discriminate HM. }
  rewrite compute_laplacian_rw in HM by lia. injection HM as <-.
  unfold todense, multiply_row_vector, unnormalised, csr_float64; simpl.
  destruct (in_shape (order G) (order G) i j) eqn:E; [|reflexivity].
  unfold in_shape in E. apply andb_true_iff in E. destruct E as [Hi Hj].
  apply Nat.ltb_lt in Hi. apply Nat.ltb_lt in Hj.
  unfold pruneQ.
  destruct (Qeq_bool (laplacian_entry G i j) 0) eqn:E; [reflexivity|].
  simpl. unfold of_nat. simpl.
  destruct (Qeq_bool (inject_Z (Z.of_nat (degree G (node_at G j)))) 0) eqn:Ed;
    [|reflexivity].
  exfalso. apply of_nat_zero_iff in Ed.
  apply Qeq_bool_neq in E. apply E.
  unfold laplacian_entry.
  rewrite (isolated_adjacency_column G i j Hsym Hi Ed).
  destruct (i =? j) eqn:Eij.
  - apply Nat.eqb_eq in Eij. subst j.
    rewrite (isolated_weighted_degree G i Ed). ring.
  - ring.
Qed.

(** ** C3, C6: the spectrum *)

Lemma Rsum_ext (f g : nat -> R) (n : nat) :
  (forall i, i < n -> f i = g i) -> Rsum f n = Rsum g n.
Proof.
  intro H. unfold Rsum. f_equal.
  apply map_ext_in. intros i Hi. apply in_seq in Hi. apply H. lia.
Qed.

Lemma Rsum_list_scal (f : nat -> R) (c : R) (l : list nat) :
  fold_right Rplus 0%R (map (fun i => c * f i)%R l) =
  (c * fold_right Rplus 0%R (map f l))%R.
Proof.
  induction l as [|x l IH]; simpl.
  - ring.
  - rewrite IH. ring.
Qed.

Lemma Rsum_scal (f : nat -> R) (c : R) (n : nat) :
  Rsum (fun i => c * f i)%R n = (c * Rsum f n)%R.
Proof. unfold Rsum. apply Rsum_list_scal. Qed.

Lemma sqrt_INR_sq (n : nat) : (sqrt (INR n) * sqrt (INR n) = INR n)%R.
Proof. apply sqrt_sqrt. apply pos_INR. Qed.

(** Dividing every entry by [sqrt n] divides the sum of the squares of a
    column by [n]. *)
Lemma scaled_column_sq_sum (V : ndarray) (k j : nat) :
  0 < nrows V ->
  column_sq_sum (div_scalar (take_cols V k) (sqrt (INR (nrows V)))) j =
  (column_sq_sum V j / INR (nrows V))%R.
Proof.
  intro Hn. unfold column_sq_sum, div_scalar, take_cols; simpl.
  assert (Hpos : (0 < INR (nrows V))%R) by (apply lt_0_INR; exact Hn).
  assert (Hs : (sqrt (INR (nrows V)) <> 0)%R).
  { intro H0. assert (H := sqrt_INR_sq (nrows V)). rewrite H0 in H. lra. }
  rewrite (Rsum_ext _ (fun i => / INR (nrows V) *
                                (arr_at V i j * arr_at V i j))%R).
  - rewrite Rsum_scal. unfold Rdiv. ring.
  - intros i _. rewrite <- (sqrt_INR_sq (nrows V)) at 3. field. exact Hs.
Qed.

Section SpectrumFacts.

Variable solver : eigen_solver.

(** What [compute_spectrum] returns is the solver's answer for the clipped
    request, its columns divided by the square root of the number of
    rows. *)
Lemma compute_spectrum_inv
  (L : matrix_arg) (k : option nat) (evals : list R) (evecs : ndarray) :
  snd (compute_spectrum solver L k) = Ok (evals, evecs) ->
  exists k' V,
    eigsh solver L k' = Ok (evals, V) /\
    evecs = div_scalar (take_cols V k') (sqrt (INR (nrows V))).
Proof.
  unfold compute_spectrum.
  destruct (shape0 L <=? match k with None => shape0 L | Some k0 => k0 end);
    simpl; intro H.
  - destruct (eigsh solver L (shape0 L)) as [[ev V]|e] eqn:E;
      simpl in H; [|discriminate H].
    injection H as <- <-. exists (shape0 L), V. split; [exact E | reflexivity].
  - destruct (eigsh solver L match k with None => shape0 L | Some k0 => k0 end)
      as [[ev V]|e] eqn:E; simpl in H; [|discriminate H].
    injection H as <- <-. eexists. exists V. split; [exact E | reflexivity].
Qed.

Lemma eigsh_inv (L : matrix_arg) (k : nat) (s : spectrum) :
  eigsh solver L k = Ok s -> exists k', solver L k' = Ok s.
Proof.
  unfold eigsh.
  destruct (k =? 0); [discriminate|].
  destruct (shape0 L <=? k).
  - destruct (issparse L); [discriminate|]. intro H. eexists; exact H.
  - intro H. eexists; exact H.
Qed.

(** The solver's contract: every eigenvector it returns has Euclidean
    norm one. *)
Hypothesis solver_unit_columns :
  forall A k evals V, solver A k = Ok (evals, V) ->
    forall j, j < ncols V -> column_sq_sum V j = 1%R.

Lemma unit_columns_rows (A : matrix_arg) (k : nat) (evals : list R) (V : ndarray) (j : nat) :
  solver A k = Ok (evals, V) -> j < ncols V -> 0 < nrows V.
Proof.
  intros HV Hj.
  assert (H := solver_unit_columns A k evals V HV j Hj).
  destruct (nrows V) eqn:E; [|lia].
  unfold column_sq_sum, Rsum in H. rewrite E in H. simpl in H. lra.
Qed.

(** **** C3 (as amended) -- the eigenvectors [compute_spectrum] returns
    are the unit-norm eigenvectors of the solver divided, once, by the
    square root of the number [n] of their rows; the squared entries of
    each returned column sum to [1/n]. *)
Theorem C3_column_square_sum_is_inverse_order
  (L : matrix_arg) (k : option nat) (evals : list R) (evecs : ndarray) :
  snd (compute_spectrum solver L k) = Ok (evals, evecs) ->
  (exists k' V,
     eigsh solver L k' = Ok (evals, V) /\
     nrows evecs = nrows V /\
     forall i j, arr_at evecs i j = (arr_at V i j / sqrt (INR (nrows V)))%R) /\
  forall j, j < ncols evecs ->
    column_sq_sum evecs j = (1 / INR (nrows evecs))%R.
Proof.
  intro H.
  destruct (compute_spectrum_inv L k evals evecs H) as (k' & V & HV & ->).
  split.
  - exists k', V. split; [exact HV|]. split; reflexivity.
  - intros j Hj. simpl in Hj.
    assert (HjV : j < ncols V) by lia.
    destruct (eigsh_inv L k' _ HV) as (k'' & Hs).
    rewrite scaled_column_sq_sum
      by (apply (unit_columns_rows L k'' evals V j Hs HjV)).
    rewrite (solver_unit_columns L k'' evals V Hs j HjV). reflexivity.
Qed.

End SpectrumFacts.

Lemma constant_solver_unit_columns :
  forall (A : matrix_arg) (k : nat) evals V,
    constant_solver A k = Ok (evals, V) ->
    forall j, j < ncols V -> column_sq_sum V j = 1%R.
Proof.
  intros A k evals V H j Hj.
  unfold constant_solver, constant_pair in H. injection H as <- <-.
  unfold column_sq_sum, Rsum. simpl. lra.
Qed.

Lemma compute_spectrum_cycle4 :
  snd (compute_spectrum constant_solver (SparseArg (unnormalised cycle4))
         (Some 1)) =
  Ok ([0%R], div_scalar (take_cols (snd constant_pair) 1)
                        (sqrt (INR (nrows (snd constant_pair))))).
Proof. reflexivity. Qed.

(** **** C3 (counterexample) -- for the Laplacian of the 4-cycle and one
    requested pair, the solver's unit eigenvector [(1/2, 1/2, 1/2, 1/2)]
    comes back as [(1/4, 1/4, 1/4, 1/4)]: its squared entries sum to
    [1/4], not to [1]. *)
Lemma C3_counterexample_cycle4 :
  exists evals evecs,
    snd (compute_spectrum constant_solver (SparseArg (unnormalised cycle4))
           (Some 1)) = Ok (evals, evecs) /\
    column_sq_sum (snd constant_pair) 0 = 1%R /\
    column_sq_sum evecs 0 = (1 / 4)%R /\
    column_sq_sum evecs 0 <> 1%R.
Proof.
  eexists. eexists. split; [exact compute_spectrum_cycle4|].
  assert (H1 : column_sq_sum (snd constant_pair) 0 = 1%R).
  { unfold column_sq_sum, Rsum. simpl. lra. }
  assert (H4 : column_sq_sum
                 (div_scalar (take_cols (snd constant_pair) 1)
                    (sqrt (INR (nrows (snd constant_pair))))) 0
               = (1 / 4)%R).
  { rewrite scaled_column_sq_sum by (simpl; lia).
    rewrite H1. simpl. lra. }
  split; [exact H1|]. split; [exact H4|].
  rewrite H4. lra.
Qed.

(** C3 at the 4-cycle: the returned column sums to [1/4]. *)
Lemma C3_column_square_sum_is_inverse_order_witness :
  column_sq_sum
    (div_scalar (take_cols (snd constant_pair) 1)
       (sqrt (INR (nrows (snd constant_pair))))) 0
  = (1 / INR 4)%R.
Proof.
  apply (proj2 (C3_column_square_sum_is_inverse_order
                  constant_solver constant_solver_unit_columns
                  (SparseArg (unnormalised cycle4)) (Some 1) _ _
                  compute_spectrum_cycle4) 0).
  simpl. lia.
Defined.

(** *** Requests that are not smaller than the order *)

Section Clipping.

Variable solver : eigen_solver.

(** The request is clipped to the order [m], the notice is printed, and
    the solver is asked for [m] pairs. *)
Lemma compute_spectrum_clips (L : matrix_arg) (k : option nat) :
  clipped (shape0 L) k ->
  compute_spectrum solver L k =
  ([reduced_message],
   r <- eigsh solver L (shape0 L) ;;
   let '(evals, evecs) := r in
   Ok (evals, div_scalar (take_cols evecs (shape0 L))
                         (sqrt (INR (nrows evecs))))).
Proof.
  intro Hk. unfold compute_spectrum.
  replace (shape0 L <=? match k with None => shape0 L | Some k0 => k0 end)
    with true.
  - reflexivity.
  - symmetry. apply Nat.leb_le. destruct k; simpl in Hk; lia.
Qed.

(** A smaller request is passed on as it is, and nothing is printed. *)
Lemma compute_spectrum_unclipped (L : matrix_arg) (k : nat) :
  k < shape0 L ->
  fst (compute_spectrum solver L (Some k)) = [].
Proof.
  intro Hk. unfold compute_spectrum.
  replace (shape0 L <=? k) with false; [reflexivity|].
  symmetry. apply Nat.leb_gt. exact Hk.
Qed.

(** For a dense array the clipped request is answered by the dense
    solver with all [m] pairs. *)
Lemma compute_spectrum_clipped_dense
  (rows cols : nat) (a : nat -> nat -> float) (k : option nat) :
  0 < rows -> clipped rows k ->
  compute_spectrum solver (DenseArg rows cols a) k =
  ([reduced_message],
   r <- solver (DenseArg rows cols a) rows ;;
   let '(evals, evecs) := r in
   Ok (evals, div_scalar (take_cols evecs rows) (sqrt (INR (nrows evecs))))).
Proof.
  intros Hm Hk.
  rewrite compute_spectrum_clips by exact Hk.
  unfold eigsh; simpl.
  destruct (rows =? 0) eqn:E; [apply Nat.eqb_eq in E; lia|].
  rewrite Nat.leb_refl. reflexivity.
Qed.

(** For a sparse matrix the clipped request is refused by [eigsh]: the
    notice is printed and the call ends in an exception. *)
Lemma compute_spectrum_clipped_sparse (M : spmatrix float) (k : option nat) :
  0 < sp_rows M -> clipped (sp_rows M) k ->
  compute_spectrum solver (SparseArg M) k =
  ([reduced_message], Raise TypeError).
Proof.
  intros Hm Hk.
  rewrite compute_spectrum_clips by exact Hk.
  unfold eigsh; simpl.
  destruct (sp_rows M =? 0) eqn:E; [apply Nat.eqb_eq in E; lia|].
  rewrite Nat.leb_refl. reflexivity.
Qed.

(** **** C6 -- at the Laplacian [compute_laplacian] returns for the path
    0 - 1 - 2, a sparse matrix of order 3, the request is clipped to 3
    and the notice is printed, whether the number of pairs is left out,
    equal to the order or larger; the solver call that follows raises
    instead of returning three eigen-pairs. *)
Theorem C6_clipped_request_raises_on_sparse_laplacian :
  exists L,
    compute_laplacian path3 None = Ok L /\
    shape0 (SparseArg L) = 3 /\
    compute_spectrum solver (SparseArg L) None =
      ([reduced_message], Raise TypeError) /\
    compute_spectrum solver (SparseArg L) (Some 3) =
      ([reduced_message], Raise TypeError) /\
    compute_spectrum solver (SparseArg L) (Some 7) =
      ([reduced_message], Raise TypeError).
Proof.
  exists (unnormalised path3).
  split; [apply compute_laplacian_none; vm_compute; lia|].
  split; [reflexivity|].
  repeat split; apply compute_spectrum_clipped_sparse;
    simpl; try lia.
Qed.

End Clipping.

(** ** C4: diffusion for no time *)

Lemma Rsum_list_delta (i : nat) (f : nat -> R) (start len : nat) :
  fold_right Rplus 0%R
    (map (fun k => (if i =? k then 1 else 0) * f k)%R (seq start len)) =
  if (start <=? i) && (i <? start + len) then f i else 0%R.
Proof.
  revert start.
  induction len as [|len IH]; intro start; simpl.
  - destruct (start <=? i) eqn:E1, (i <? start + 0) eqn:E2; simpl;
      try reflexivity.
    apply Nat.leb_le in E1. apply Nat.ltb_lt in E2. lia.
  - rewrite IH.
    destruct (Nat.eq_dec i start) as [-> | Hne].
    + rewrite Nat.eqb_refl.
      replace (S start <=? start) with false
        by (symmetry; apply Nat.leb_gt; lia).
      replace (start <=? start) with true by (symmetry; apply Nat.leb_le; lia).
      replace (start <? start + S len) with true
        by (symmetry; apply Nat.ltb_lt; lia).
      simpl. ring.
    + replace (i =? start) with false by (symmetry; apply Nat.eqb_neq; exact Hne).
      replace (i <? start + S len) with (i <? S start + len)
        by (f_equal; lia).
      destruct (S start <=? i) eqn:E1.
      * apply Nat.leb_le in E1.
        replace (start <=? i) with true by (symmetry; apply Nat.leb_le; lia).
        simpl. ring.
      * apply Nat.leb_gt in E1.
        destruct (start <=? i) eqn:E2.
        -- apply Nat.leb_le in E2. lia.
        -- simpl. ring.
Qed.

Lemma Rsum_delta (i n : nat) (f : nat -> R) :
  i < n -> Rsum (fun k => (if i =? k then 1 else 0) * f k)%R n = f i.
Proof.
  intro Hi. unfold Rsum. rewrite Rsum_list_delta.
  replace ((0 <=? i) && (i <? 0 + n)) with true; [reflexivity|].
  symmetry. apply andb_true_iff. split.
  - apply Nat.leb_le. lia.
  - apply Nat.ltb_lt. lia.
Qed.

(** The product of the identity with an array is the array. *)
Lemma matmul_identity (E x : ndarray) :
  is_identity E (nrows x) ->
  exists y, matmul E x = Ok y /\ arr_eq y x.
Proof.
  intros (Hr & Hc & He). unfold matmul.
  rewrite Hc, Nat.eqb_refl.
  eexists. split; [reflexivity|].
  unfold arr_eq; simpl. split; [exact Hr|]. split; [reflexivity|].
  intros i j Hi Hj. rewrite Hr in Hi.
  rewrite (Rsum_ext (fun k => arr_at E i k * arr_at x k j)%R
                    (fun k => (if i =? k then 1 else 0) * arr_at x k j)%R
                    (nrows x)).
  - apply (Rsum_delta i (nrows x) (fun k => arr_at x k j)). exact Hi.
  - intros k Hk. rewrite (He i k Hi Hk). reflexivity.
Qed.

Lemma scaled_by_zero_time (M : spmatrix R) :
  sp_rows M = sp_cols M ->
  is_zero_square (scale (- 0) (todenseR M)) (sp_rows M).
Proof.
  intro Hsq. unfold is_zero_square, scale, todenseR; simpl.
  split; [reflexivity|]. split; [symmetry; exact Hsq|].
  intros i j _ _. ring.
Qed.

Section DiffusionFacts.

Variable expm : ndarray -> ndarray.

(** The contract of the matrix exponential used here: the exponential of
    the zero matrix is the identity. *)
Hypothesis expm_zero :
  forall A n, is_zero_square A n -> is_identity (expm A) n.






End DiffusionFacts.

Lemma mat_pow_zero (n : nat) (A : nat -> nat -> R) (k i j : nat) :
  (forall i j, i < n -> j < n -> A i j = 0%R) ->
  i < n -> j < n ->
  mat_pow n A (S k) i j = 0%R.
Proof.
  intros HA Hi Hj. simpl.
  rewrite (Rsum_ext _ (fun _ => 0 * 0)%R).
  - unfold Rsum.
    induction (seq 0 n) as [|y l IH]; simpl; [reflexivity | rewrite IH; ring].
  - intros l Hl. rewrite (HA i l Hi Hl). ring.
Qed.

Lemma Rsum_S (f : nat -> R) (n : nat) : Rsum f (S n) = (Rsum f n + f n)%R.
Proof.
  unfold Rsum. rewrite seq_S, map_app, fold_right_app. simpl.
  generalize (f (0 + n)) as c. intro c.
  induction (map f (seq 0 n)) as [|y l IH]; simpl.
  - ring.
  - rewrite IH. ring.
Qed.

(** The Taylor polynomials satisfy the contract. *)
Lemma expm_taylor_zero (N : nat) (A : ndarray) (n : nat) :
  is_zero_square A n -> is_identity (expm_taylor N A) n.
Proof.
  intros (Hr & Hc & HA). unfold is_identity, expm_taylor.
  cbn [nrows ncols arr_at].
  split; [exact Hr|]. split; [exact Hc|].
  intros i j Hi Hj. rewrite Hr.
  induction N as [|N IH].
  - unfold Rsum; simpl. destruct (i =? j); field.
  - rewrite Rsum_S, IH.
    rewrite (mat_pow_zero n (arr_at A) N i j HA Hi Hj).
    unfold Rdiv. ring.
Qed.



(** Were [np.mm] the matrix product, the same call would return the field
    [1/4], not the all-ones field it was given: the eigenvectors of
    [compute_spectrum] are scaled by [1/sqrt n], so projecting on them and
    back is not the identity. *)
Lemma spectral_with_mm_not_identity :
  exists y,
    spectral_branch_with_mm ones_4 0
      (fst scaled_constant_pair) (snd scaled_constant_pair) = Ok y /\
    arr_at y 0 0 = (1 / 4)%R /\
    arr_at ones_4 0 0 = 1%R.
Proof.
  eexists. split; [reflexivity|]. split; [|reflexivity].
  unfold Rsum; simpl.
  replace (- 0 * 0)%R with 0%R by ring. rewrite exp_0. field.
Qed.

(** The entries of the pair returned for the 4-cycle are all [1/4]. *)
Lemma compute_spectrum_cycle4_values (i j : nat) :
  arr_at (div_scalar (take_cols (snd constant_pair) 1)
            (sqrt (INR (nrows (snd constant_pair))))) i j
  = arr_at (snd scaled_constant_pair) i j.
Proof.
  simpl.
  replace (1 + 1 + 1 + 1)%R with (2 * 2)%R by ring.
  rewrite sqrt_square by lra. field.
Qed.

(** ** C7: the checks of [vector_diffusion] *)

Section VectorDiffusionFacts.

Variable expm : ndarray -> ndarray.





End VectorDiffusionFacts.




(** A normalised call with both operators makes three calls of
    [scalar_diffusion] and returns an array of the shape of the field. *)
Lemma vector_diffusion_normalised_run :
  exists out,
    vector_diffusion (expm_taylor 4) field_2x2 1 (zero_operator 4)
      (Some (zero_operator 2)) "matrix_exp" true
    = ([Diffusion (Some (zero_operator 4));
        Diffusion (Some (zero_operator 2));
        Diffusion (Some (zero_operator 2))], Ok out) /\
    nrows out = 2 /\ ncols out = 2.
Proof. eexists. split; [reflexivity|]. split; reflexivity. Qed.

(** ** C8, C9: furthest point sampling *)

Lemma assign_head {A : Type} (a : list A) (i : nat) (v : A) :
  1 <= i -> nth_error (assign a i v) 0 = nth_error a 0.
Proof.
  intro Hi. destruct a as [|h a]; [reflexivity|].
  destruct i as [|i]; [lia | reflexivity].
Qed.

Lemma firstn_head {A : Type} (a : list A) (i : nat) :
  1 <= i -> nth_error (firstn i a) 0 = nth_error a 0.
Proof.
  intro Hi. destruct i as [|i]; [lia|].
  destruct a; reflexivity.
Qed.

Section SamplingFacts.

Variable dist : point -> point -> Q.

(** The loop never touches position 0 of [perm]. *)
Lemma sampling_loop_head
  (D : list (list Q)) (diam : Q) (N : option nat) (stop_crit : Q)
  (range : list nat) :
  Forall (fun i => 1 <= i) range ->
  forall (perm : list nat) (lambdas ds : list Q),
    nth_error (fst (sampling_loop D diam N stop_crit range perm lambdas ds)) 0
    = nth_error perm 0.
Proof.
  induction 1 as [|i range Hi _ IH]; intros perm lambdas ds.
  - reflexivity.
  - cbn [sampling_loop].
    match goal with
    | |- context [if ?c then _ else _] => destruct c
    end; cbn [fst].
    + rewrite firstn_head, assign_head by exact Hi. reflexivity.
    + rewrite IH, assign_head by exact Hi. reflexivity.
Qed.

Lemma range_from_one (n : nat) : Forall (fun i => 1 <= i) (seq 1 n).
Proof.
  apply Forall_forall. intros i Hi. apply in_seq in Hi. lia.
Qed.

(** **** C8 -- with [stop_crit] other than zero, the result of
    [furthest_point_sampling] is the same for any two values of
    [start_idx], and the first index of a returned sample is the
    constant 5. *)
Theorem C8_start_idx_is_overridden
  (x : list point) (N : option nat) (stop_crit : Q) (start1 start2 : nat) :
  ~ (stop_crit == 0)%Q ->
  furthest_point_sampling dist x N stop_crit start1 =
  furthest_point_sampling dist x N stop_crit start2 /\
  forall perm lambdas,
    furthest_point_sampling dist x N stop_crit start1 = Ok (perm, lambdas) ->
    nth_error perm 0 = Some 5.
Proof.
  intro Hsc. split; [reflexivity|].
  intros perm lambdas. unfold furthest_point_sampling.
  destruct (Qeq_bool stop_crit 0) eqn:E;
    [apply Qeq_bool_eq in E; contradiction|].
  destruct (pairwise_distances dist x) as [D|e]; simpl; [|discriminate].
  destruct (matrix_max D) as [diam|e]; simpl; [|discriminate].
  set (n := match N with None => List.length D | Some m => m end).
  unfold setitem.
  destruct (0 <? List.length (repeat 0 n)) eqn:En; simpl; [|discriminate].
  destruct (getrow D 5) as [ds|e]; simpl; [|discriminate].
  assert (Hhead := sampling_loop_head D diam N stop_crit (seq 1 (n - 1))
                     (range_from_one (n - 1))
                     (assign (repeat 0 n) 0 5) (repeat 0%Q n) ds).
  destruct (sampling_loop D diam N stop_crit (seq 1 (n - 1))
              (assign (repeat 0 n) 0 5) (repeat 0%Q n) ds)
    as [perm' lambdas'].
  intro H. injection H as <- _.
  cbn [fst] in Hhead.
  change (nth_error perm' 0 = Some 5). rewrite Hhead.
  destruct n; [discriminate En | reflexivity].
Qed.

Lemma check_array_ok (x : list point) :
  check_array x = Ok tt \/ check_array x = Raise ValueError.
Proof.
  unfold check_array. destruct x as [|p x]; [right; reflexivity|].
  destruct (List.length p =? 0); [right | left]; reflexivity.
Qed.

Lemma pairwise_distances_length (x : list point) (D : list (list Q)) :
  pairwise_distances dist x = Ok D -> List.length D = List.length x.
Proof.
  unfold pairwise_distances.
  destruct (check_array x); simpl; [|discriminate].
  intro H. injection H as <-. apply length_map.
Qed.

Lemma matrix_max_ok (x : list point) (D : list (list Q)) :
  pairwise_distances dist x = Ok D -> exists diam, matrix_max D = Ok diam.
Proof.
  unfold pairwise_distances, check_array.
  destruct x as [|p x]; simpl; [discriminate|].
  destruct (List.length p =? 0); simpl; [discriminate|].
  intro H. injection H as <-. unfold matrix_max. simpl.
  eexists. reflexivity.
Qed.

(** With at most five points the call never returns: the distance matrix
    is refused, or position 0 of an empty [perm] or row 5 of the distance
    matrix is out of range. *)
Lemma few_points_raise
  (x : list point) (N : option nat) (stop_crit : Q) (start_idx : nat) :
  ~ (stop_crit == 0)%Q -> List.length x <= 5 ->
  furthest_point_sampling dist x N stop_crit start_idx =
  match check_array x with
  | Ok _ => Raise IndexError
  | Raise e => Raise e
  end.
Proof.
  intros Hsc Hlen. unfold furthest_point_sampling.
  destruct (Qeq_bool stop_crit 0) eqn:E;
    [apply Qeq_bool_eq in E; contradiction|].
  destruct (pairwise_distances dist x) as [D|e] eqn:ED.
  - destruct (matrix_max_ok x D ED) as (diam & Hdiam).
    assert (HD := pairwise_distances_length x D ED).
    unfold pairwise_distances in ED.
    destruct (check_array x) as [[]|e]; simpl in ED; [|discriminate].
    cbn [bind]. rewrite Hdiam. cbn [bind]. unfold setitem.
    match goal with
    | |- context [if ?c then _ else _] => destruct c
    end; cbn [bind]; [|reflexivity].
    unfold getrow.
    replace (nth_error D 5) with (@None (list Q)); [reflexivity|].
    symmetry. apply nth_error_None. lia.
  - unfold pairwise_distances in ED.
    destruct (check_array x) as [[]|e']; simpl in ED; [discriminate|].
    injection ED as ->. reflexivity.
Qed.

(** **** C9 (as amended) -- with [stop_crit] other than zero and at most
    five points, [furthest_point_sampling] raises: an index error when
    the distance matrix can be computed (at least one point, with at
    least one coordinate), the value error of the distance computation
    otherwise.  It returns a sample only for six points or more; with
    [stop_crit] zero it returns all the indices in order and no
    distances. *)
Theorem C9_few_points_raise
  (x : list point) (N : option nat) (stop_crit : Q) (start_idx : nat) :
  ((stop_crit == 0)%Q ->
   furthest_point_sampling dist x N stop_crit start_idx =
   Ok (seq 0 (List.length x), None)) /\
  (~ (stop_crit == 0)%Q -> List.length x <= 5 ->
   (check_array x = Ok tt ->
    furthest_point_sampling dist x N stop_crit start_idx = Raise IndexError) /\
   (check_array x <> Ok tt ->
    furthest_point_sampling dist x N stop_crit start_idx = Raise ValueError)) /\
  (~ (stop_crit == 0)%Q ->
   forall r, furthest_point_sampling dist x N stop_crit start_idx = Ok r ->
             6 <= List.length x).
Proof.
  split; [|split].
  - intro Hz. unfold furthest_point_sampling.
    rewrite (Qeq_eq_bool _ _ Hz). reflexivity.
  - intros Hsc Hlen.
    rewrite (few_points_raise x N stop_crit start_idx Hsc Hlen).
    split.
    + intros ->. reflexivity.
    + intro Hbad. destruct (check_array_ok x) as [H | H];
        [contradiction | rewrite H; reflexivity].
  - intros Hsc r Hr.
    destruct (le_lt_dec (List.length x) 5) as [Hlen | Hlen]; [|lia].
    rewrite (few_points_raise x N stop_crit start_idx Hsc Hlen) in Hr.
    destruct (check_array x); discriminate Hr.
Qed.

(** **** X22 -- with six points or more, of at least one coordinate, and
    a sample size other than zero the call returns a sample. *)
Lemma enough_points_return
  (x : list point) (N : option nat) (stop_crit : Q) (start_idx : nat) :
  ~ (stop_crit == 0)%Q -> check_array x = Ok tt ->
  6 <= List.length x -> N <> Some 0 ->
  exists perm lambdas,
    furthest_point_sampling dist x N stop_crit start_idx
    = Ok (perm, Some lambdas).
Proof.
  intros Hsc Hx Hlen HN. unfold furthest_point_sampling.
  destruct (Qeq_bool stop_crit 0) eqn:E;
    [apply Qeq_bool_eq in E; contradiction|].
  assert (ED : pairwise_distances dist x
               = Ok (map (fun p => map (fun q => dist p q) x) x)).
  { unfold pairwise_distances. rewrite Hx. reflexivity. }
  rewrite ED. cbn [bind].
  destruct (matrix_max_ok x _ ED) as (diam & ->). cbn [bind].
  assert (HD := pairwise_distances_length x _ ED).
  unfold setitem. rewrite repeat_length.
  match goal with
  | |- context [if ?c then _ else _] => destruct c eqn:En
  end.
  - cbn [bind]. unfold getrow.
    destruct (nth_error (map (fun p => map (fun q => dist p q) x) x) 5)
      as [ds|] eqn:Eds.
    + cbn [bind].
      match goal with
      | |- context [sampling_loop ?a ?b ?c ?d ?e ?f ?g ?h] =>
          destruct (sampling_loop a b c d e f g h) as [perm lambdas]
      end.
      exists perm, lambdas. reflexivity.
    + apply nth_error_None in Eds. lia.
  - apply Nat.ltb_ge in En. destruct N as [[|m]|]; [contradiction | lia | lia].
Qed.

End SamplingFacts.

Lemma tenth_not_zero : ~ (1 # 10 == 0)%Q.
Proof. intro H. discriminate H. Qed.

(** C8 at six points on a line, for the start indices 0 and 3: the
    sample is [5, 0, 4, 2, 1, 3] for both. *)
Lemma C8_start_idx_is_overridden_witness :
  furthest_point_sampling line_dist six_points None (1 # 10) 0 =
  furthest_point_sampling line_dist six_points None (1 # 10) 3 /\
  furthest_point_sampling line_dist six_points None (1 # 10) 0 =
  Ok ([5; 0; 4; 2; 1; 3], Some [0; 10; 4; 2; 1; 1]%Q) /\
  nth_error [5; 0; 4; 2; 1; 3] 0 = Some 5.
Proof.
  destruct (C8_start_idx_is_overridden
              line_dist six_points None (1 # 10) 0 3 tenth_not_zero)
    as [Hsame Hhead].
  assert (Hrun : furthest_point_sampling line_dist six_points None (1 # 10) 0
                 = Ok ([5; 0; 4; 2; 1; 3], Some [0; 10; 4; 2; 1; 1]%Q))
    by (vm_compute; reflexivity).
  split; [exact Hsame|]. split; [exact Hrun|].
  exact (Hhead _ _ Hrun).
Defined.

(** C9 at three points on a line. *)
Lemma C9_few_points_raise_witness :
  furthest_point_sampling line_dist three_points None (1 # 10) 0
  = Raise IndexError.
Proof.
  apply (proj1 (proj1 (proj2 (C9_few_points_raise
                                line_dist three_points None (1 # 10) 0))
                      tenth_not_zero ltac:(simpl; lia))).
  reflexivity.
Defined.

(** **** C9 (counterexample) -- for the empty point set, which has at
    most five points, the call raises the value error of the distance
    computation, not an index error. *)
Lemma C9_counterexample_empty_point_set :
  List.length (@nil point) <= 5 /\
  furthest_point_sampling line_dist [] None (1 # 10) 0 = Raise ValueError /\
  furthest_point_sampling line_dist [] None (1 # 10) 0 <> Raise IndexError.
Proof.
  split; [simpl; lia|]. split; [reflexivity|]. discriminate.
Qed.

(** ** C10: the graph over a point set *)

Section ManifoldGraphFacts.

Variable neighbours : list point -> nat -> nat -> list nat.
Variable dist : point -> point -> Q.
Variable exp_ : Q -> Q.

Lemma mem_seq (i n : nat) : i < n -> mem i (seq 0 n) = true.
Proof.
  intro Hi. unfold mem. apply existsb_exists.
  exists i. split; [apply in_seq; lia | apply Nat.eqb_refl].
Qed.

(** Attaching the positions to a graph on the nodes [0 .. n-1], [n] the
    number of points. *)
Lemma set_pos_range (G : Graph) (X : list point) :
  nodes G = seq 0 (List.length X) ->
  exists G',
    set_pos G X = Ok G' /\
    nodes G' = seq 0 (List.length X) /\
    forall i, i < List.length X -> pos G' i = nth_error X i.
Proof.
  intro Hnodes. unfold set_pos. rewrite Hnodes.
  replace (forallb (fun i => i <? List.length X) (seq 0 (List.length X)))
    with true.
  - eexists. split; [reflexivity|]. simpl. split; [reflexivity|].
    intros i Hi. rewrite (mem_seq i _ Hi). reflexivity.
  - symmetry. apply forallb_forall. intros i Hi.
    apply in_seq in Hi. apply Nat.ltb_lt. lia.
Qed.

(** The input check has two outcomes: the point set is accepted, or a
    value error is raised. *)
Lemma check_array_refuses (X : list point) :
  check_array X <> Ok tt -> check_array X = Raise ValueError.
Proof.
  unfold check_array. destruct X as [|p X]; [reflexivity|].
  destruct (List.length p =? 0); [reflexivity | congruence].
Qed.

(** **** C10 (as amended) -- with a [typ] other than ['knn'] and
    ['affinity'], [manifold_graph] raises the unbound-variable error at
    the node-attribute step, for every point set.  For ['affinity'] on a
    point set the input check accepts (at least one point, of at least
    one coordinate), and for ['knn'] on such a point set with at least
    one neighbour asked for and more points than neighbours, it returns
    a graph whose nodes are [0 .. n-1], each with its point as the
    ["pos"] attribute.  For ['knn'] with no neighbour asked for, or with
    no more points than neighbours, it raises a value error, for every
    point set; and so do both supported types on a point set the input
    check refuses. *)
Theorem C10_manifold_graph_nodes_and_positions
  (X : list point) (typ : string) (n_neighbors : nat) :
  (typ <> "knn"%string -> typ <> "affinity"%string ->
   manifold_graph neighbours dist exp_ X typ n_neighbors
   = Raise UnboundLocalError) /\
  (check_array X = Ok tt ->
   (typ = "knn"%string /\ 1 <= n_neighbors < List.length X) \/
   typ = "affinity"%string ->
   exists G,
     manifold_graph neighbours dist exp_ X typ n_neighbors = Ok G /\
     nodes G = seq 0 (List.length X) /\
     forall i, i < List.length X -> pos G i = nth_error X i) /\
  (typ = "knn"%string ->
   n_neighbors = 0 \/ List.length X <= n_neighbors ->
   manifold_graph neighbours dist exp_ X typ n_neighbors
   = Raise ValueError) /\
  (typ = "knn"%string \/ typ = "affinity"%string ->
   check_array X <> Ok tt ->
   manifold_graph neighbours dist exp_ X typ n_neighbors
   = Raise ValueError).
Proof.
  split; [|split; [|split]].
  - intros Hknn Haff. unfold manifold_graph.
    apply String.eqb_neq in Hknn. apply String.eqb_neq in Haff.
    rewrite Hknn, Haff. reflexivity.
  - intros HX [[-> [Hk1 Hk2]] | ->]; unfold manifold_graph.
    + change (String.eqb "knn" "knn") with true. cbv iota.
      unfold kneighbors_graph. rewrite HX. cbn [bind].
      replace ((n_neighbors =? 0) || (List.length X <=? n_neighbors))
        with false.
      * cbn [bind]. apply set_pos_range. reflexivity.
      * symmetry. apply orb_false_iff. split.
        -- apply Nat.eqb_neq. lia.
        -- apply Nat.leb_gt. lia.
    + change (String.eqb "affinity" "knn") with false.
      change (String.eqb "affinity" "affinity") with true. cbv iota.
      unfold pairwise_distances. rewrite HX. cbn [bind].
      apply set_pos_range. simpl. rewrite length_map. reflexivity.
  - intros -> Hk. unfold manifold_graph.
    change (String.eqb "knn" "knn") with true. cbv iota.
    unfold kneighbors_graph.
    destruct (check_array X) as [[]|e] eqn:HX; cbn [bind].
    + replace ((n_neighbors =? 0) || (List.length X <=? n_neighbors))
        with true; [reflexivity|].
      symmetry. apply orb_true_iff.
      destruct Hk as [Hk | Hk]; [left | right].
      * apply Nat.eqb_eq. exact Hk.
      * apply Nat.leb_le. exact Hk.
    + assert (He : check_array X = Raise ValueError).
      { apply check_array_refuses. rewrite HX. discriminate. }
      rewrite HX in He. injection He as ->. reflexivity.
  - intros Htyp HX. apply check_array_refuses in HX. unfold manifold_graph.
    destruct Htyp as [-> | ->].
    + change (String.eqb "knn" "knn") with true. cbv iota.
      unfold kneighbors_graph. rewrite HX. reflexivity.
    + change (String.eqb "affinity" "knn") with false.
      change (String.eqb "affinity" "affinity") with true. cbv iota.
      unfold pairwise_distances. rewrite HX. reflexivity.
Qed.

End ManifoldGraphFacts.

(** C10 at three points on a line, and at the point set without
    points. *)
Lemma C10_manifold_graph_nodes_and_positions_witness :
  manifold_graph first_others line_dist unit_exp three_points "spectral" 5
  = Raise UnboundLocalError /\
  (exists G,
     manifold_graph first_others line_dist unit_exp three_points "knn" 2
     = Ok G /\
     nodes G = seq 0 (List.length three_points) /\
     forall i, i < List.length three_points ->
               pos G i = nth_error three_points i) /\
  manifold_graph first_others line_dist unit_exp three_points "knn" 3
  = Raise ValueError /\
  manifold_graph first_others line_dist unit_exp [] "affinity" 5
  = Raise ValueError.
Proof.
  split; [|split; [|split]].
  - apply (proj1 (C10_manifold_graph_nodes_and_positions
                    first_others line_dist unit_exp three_points
                    "spectral" 5)); discriminate.
  - apply (proj1 (proj2 (C10_manifold_graph_nodes_and_positions
                    first_others line_dist unit_exp three_points "knn" 2))).
    + reflexivity.
    + left. split; [reflexivity | simpl; lia].
  - apply (proj1 (proj2 (proj2 (C10_manifold_graph_nodes_and_positions
                    first_others line_dist unit_exp three_points "knn" 3)))).
    + reflexivity.
    + right. simpl. lia.
  - apply (proj2 (proj2 (proj2 (C10_manifold_graph_nodes_and_positions
                    first_others line_dist unit_exp [] "affinity" 5)))).
    + right. reflexivity.
    + discriminate.
Defined.

(** **** C10 (counterexample) -- three points and the default five
    neighbours: for the supported type ['knn'] the neighbour search
    refuses the request, and no graph is returned. *)
Lemma C10_counterexample_knn_few_points :
  manifold_graph first_others line_dist unit_exp three_points "knn" 5
  = Raise ValueError.
Proof. reflexivity. Qed.

(** ** Further properties of the Laplacians *)

(** X1 at the path 0 - 1 - 2, row 1. *)
Lemma compute_laplacian_none_row_sum_witness :
  exists M, compute_laplacian path3 None = Ok M /\
            sp_rows M = 3 /\ sp_cols M = 3 /\
            (forall j, j < 3 ->
               todense M 1 j =f= Fin (laplacian_entry path3 1 j)) /\
            row_sum M 1 =f= Fin 0.
Proof.
  apply (compute_laplacian_none_row_sum path3 1).
  - vm_compute. lia.
  - vm_compute. lia.
Defined.

Lemma Qsum_scal (c : Q) (f : nat -> Q) (l : list nat) :
  (Qsum (map (fun i => f i * c) l) == Qsum (map f l) * c)%Q.
Proof.
  induction l as [|x l IH]; simpl.
  - ring.
  - rewrite IH. ring.
Qed.

Lemma weight_at_symmetric (G : Graph) (i j : nat) :
  symmetric_weights G -> weight_at G i j = weight_at G j i.
Proof.
  intro Hs. unfold weight_at, todenseQ, to_scipy_sparse_array; simpl.
  unfold in_shape. rewrite (andb_comm (i <? order G)).
  destruct ((j <? order G) && (i <? order G)); [|reflexivity].
  rewrite (Hs (node_at G i) (node_at G j)). reflexivity.
Qed.

Lemma laplacian_entry_symmetric (G : Graph) (i j : nat) :
  symmetric_weights G -> (laplacian_entry G i j == laplacian_entry G j i)%Q.
Proof.
  intro Hs. unfold laplacian_entry.
  fold (weight_at G i j). fold (weight_at G j i).
  rewrite (weight_at_symmetric G i j Hs).
  destruct (Nat.eq_dec i j) as [-> | Hne].
  - reflexivity.
  - rewrite (proj2 (Nat.eqb_neq i j) Hne).
    rewrite (proj2 (Nat.eqb_neq j i) (not_eq_sym Hne)). reflexivity.
Qed.

Lemma laplacian_column_sum_zero (G : Graph) (j : nat) :
  symmetric_weights G -> j < order G ->
  (Qsum (map (fun i => laplacian_entry G i j) (seq 0 (order G))) == 0)%Q.
Proof.
  intros Hs Hj.
  rewrite (Qsum_ext _ (laplacian_entry G j)).
  - apply laplacian_row_sum_zero. exact Hj.
  - intros i _. apply laplacian_entry_symmetric. exact Hs.
Qed.

Lemma symmetric_undirected (G : Graph) : symmetric_weights G -> undirected G.
Proof. intros Hs u v H. rewrite <- (Hs u v). exact H. Qed.

(** The dense entry of the ["rw"] result: the Laplacian entry times the
    reciprocal of the degree of the column's node, when that degree is not
    zero. *)
Lemma compute_laplacian_rw_dense (G : Graph) (i j : nat) :
  i < order G -> j < order G ->
  degree G (node_at G j) <> 0 ->
  todense (multiply_row_vector (unnormalised G)
             (fun j => fdiv (Fin 1) (of_nat (degree G (node_at G j))))) i j
  =f= Fin (laplacian_entry G i j
           * (1 / inject_Z (Z.of_nat (degree G (node_at G j))))).
Proof.
  intros Hi Hj Hd.
  unfold todense. rewrite multiply_row_vector_at.
  unfold unnormalised, csr_float64; simpl.
  rewrite (in_shape_true _ _ _ _ Hi Hj).
  unfold pruneQ.
  destruct (Qeq_bool (laplacian_entry G i j) 0) eqn:E; simpl.
  - apply Qeq_bool_eq in E. rewrite E. ring.
  - unfold of_nat; simpl.
    destruct (Qeq_bool (inject_Z (Z.of_nat (degree G (node_at G j)))) 0) eqn:Ed.
    + apply of_nat_zero_iff in Ed. contradiction.
    + simpl. reflexivity.
Qed.

(** **** X2 -- for a graph with symmetric weights,
    [compute_laplacian(G, "rw")] returns a matrix all of whose columns sum
    to zero: the division by the degrees acts on the columns. *)
Theorem compute_laplacian_rw_column_sum (G : Graph) (j : nat) :
  symmetric_weights G -> j < order G ->
  exists M, compute_laplacian G (Some "rw"%string) = Ok M /\
            sp_rows M = order G /\
            column_sum M j =f= Fin 0.
Proof.
  intros Hs Hj.
  assert (Hn : 0 < order G) by lia.
  eexists. split; [apply compute_laplacian_rw; exact Hn|].
  split; [reflexivity|].
  unfold column_sum.
  change (sp_rows (multiply_row_vector (unnormalised G) _)) with (order G).
  destruct (Nat.eq_dec (degree G (node_at G j)) 0) as [Hd | Hd].
  - transitivity (Fin (Qsum (map (fun _ => 0%Q) (seq 0 (order G))))).
    + apply fsum_feq. intros i Hi. apply in_seq in Hi.
      unfold todense. rewrite multiply_row_vector_at.
      unfold unnormalised, csr_float64; simpl.
      destruct (in_shape (order G) (order G) i j); [|reflexivity].
      unfold pruneQ.
      assert (Hz : (laplacian_entry G i j == 0)%Q).
      { rewrite (laplacian_entry_symmetric G i j Hs).
        apply isolated_laplacian_row. exact Hd. }
      rewrite (Qeq_eq_bool _ _ Hz). reflexivity.
    + simpl. apply Qsum_zero.
  - transitivity
      (Fin (Qsum (map (fun i => laplacian_entry G i j
                      * (1 / inject_Z (Z.of_nat (degree G (node_at G j)))))%Q
                      (seq 0 (order G))))).
    + apply fsum_feq. intros i Hi. apply in_seq in Hi.
      apply compute_laplacian_rw_dense; [lia | exact Hj | exact Hd].
    + simpl.
      rewrite (Qsum_scal _ (fun i => laplacian_entry G i j)).
      rewrite (laplacian_column_sum_zero G j Hs Hj). ring.
Qed.

Lemma sym_adj_symmetric (edges : list (nat * nat * Q)) (u v : nat) :
  sym_adj edges u v = sym_adj edges v u.
Proof.
  unfold sym_adj.
  induction edges as [|[[a b] w] edges IH]; simpl.
  - reflexivity.
  - rewrite (orb_comm ((a =? v) && (b =? u))).
    destruct (((a =? u) && (b =? v)) || ((a =? v) && (b =? u)));
      [reflexivity | exact IH].
Qed.

Lemma path3_symmetric : symmetric_weights path3.
Proof. intros u v. apply sym_adj_symmetric. Qed.

(** X2 at the path 0 - 1 - 2, column 1. *)
Lemma compute_laplacian_rw_column_sum_witness :
  exists M, compute_laplacian path3 (Some "rw"%string) = Ok M /\
            sp_rows M = order path3 /\
            column_sum M 1 =f= Fin 0.
Proof.
  apply (compute_laplacian_rw_column_sum path3 1 path3_symmetric).
  vm_compute. lia.
Defined.

Section ConnectionLaplacianMore.

Variable G : Graph.
Variable R : spmatrix Q.
Variable d : nat.

Hypothesis order_pos : 0 < order G.
Hypothesis R_rows : sp_rows R = order G * d.
Hypothesis R_cols : sp_cols R = order G * d.

Lemma split_index (r : nat) :
  r < order G * d -> 0 < d /\ r / d < order G /\ r mod d < d /\
                     r = (r / d) * d + r mod d.
Proof.
  intro Hr.
  assert (Hd : 0 < d) by (destruct d; [lia | lia]).
  split; [exact Hd|]. split.
  - apply Nat.Div0.div_lt_upper_bound. lia.
  - split.
    + apply Nat.mod_upper_bound. lia.
    + rewrite Nat.mul_comm. apply Nat.div_mod_eq.
Qed.

(** Every entry of the connection Laplacian, by row and column. *)
Lemma connection_entry (Lc : spmatrix float) (r c : nat) :
  compute_connection_laplacian G R None = Ok Lc ->
  r < order G * d -> c < order G * d ->
  todense Lc r c =f= Fin (laplacian_entry G (r / d) (c / d) * todenseQ R r c).
Proof.
  intros HLc Hr Hc.
  destruct (split_index r Hr) as (Hd & Hi & Ha & Er).
  destruct (split_index c Hc) as (_ & Hj & Hb & Ec).
  assert (H := connection_block_entry G R d order_pos R_rows R_cols Lc
                 (r / d) (c / d) (r mod d) (c mod d) HLc Hi Hj Ha Hb).
  rewrite <- Er, <- Ec in H. exact H.
Qed.

(** **** X3 -- for a graph with symmetric weights and a symmetric matrix
    [R], the unnormalised connection Laplacian is symmetric, as the
    symmetric eigen-solver behind [compute_spectrum] assumes. *)
Theorem connection_laplacian_symmetric :
  symmetric_weights G ->
  (forall r c, (todenseQ R r c == todenseQ R c r)%Q) ->
  exists Lc,
    compute_connection_laplacian G R None = Ok Lc /\
    forall r c, r < order G * d -> c < order G * d ->
      todense Lc r c =f= todense Lc c r.
Proof.
  intros Hs HR.
  destruct (connection_laplacian_none G R d order_pos R_rows R_cols)
    as (Lc & HLc & _).
  exists Lc. split; [exact HLc|].
  intros r c Hr Hc.
  rewrite (connection_entry Lc r c HLc Hr Hc).
  rewrite (connection_entry Lc c r HLc Hc Hr).
  simpl. rewrite (laplacian_entry_symmetric G (r / d) (c / d) Hs), (HR r c).
  reflexivity.
Qed.

(** **** X4 -- with ["rw"], [compute_connection_laplacian] scales the
    rows: for a node [i] whose degree is not zero, block [(i, j)] of the
    result is [L(i, j) / deg(i)] times block [(i, j)] of [R], [deg] the
    number of edges at the node (a self-loop counted twice). *)
Theorem connection_laplacian_rw_scales_rows (i j a b : nat) :
  i < order G -> j < order G -> a < d -> b < d ->
  degree G (node_at G i) <> 0 ->
  exists Lrw,
    compute_connection_laplacian G R (Some "rw"%string) = Ok Lrw /\
    block_entry Lrw d i j a b =f=
    Fin (1 / inject_Z (Z.of_nat (degree G (node_at G i)))
         * (laplacian_entry G i j * block_entryQ R d i j a b)).
Proof.
  intros Hi Hj Ha Hb Hdeg.
  destruct (connection_laplacian_rw G R d order_pos R_rows R_cols)
    as (Lc & Lrw & HLc & HLrw & _ & _ & Hat).
  exists Lrw. split; [exact HLrw|].
  assert (He := connection_block_entry G R d order_pos R_rows R_cols Lc
                  i j a b HLc Hi Hj Ha Hb).
  assert (Hf := connection_entries_finite G R d order_pos R_rows R_cols Lc
                  (i * d + a) (j * d + b) HLc).
  unfold block_entry, block_entryQ, todense in *. rewrite Hat.
  rewrite (block_div i a d Ha), (deg_inv_positive G i Hdeg).
  destruct (sp_at Lc (i * d + a) (j * d + b)) as [x|]; simpl.
  - destruct x; simpl in *; try discriminate.
    rewrite He. reflexivity.
  - simpl in He. rewrite <- He. ring.
Qed.

End ConnectionLaplacianMore.

(** **** X5 -- [compute_connection_laplacian] never returns a matrix for
    the normalisation ["sym"]: on a graph with nodes and a matrix [R] of
    the fitting shape it raises [NotImplementedError]. *)
Theorem connection_laplacian_sym_raises (G : Graph) (R : spmatrix Q) :
  (exists e, compute_connection_laplacian G R (Some "sym"%string) = Raise e) /\
  (forall d, 0 < order G ->
             sp_rows R = order G * d -> sp_cols R = order G * d ->
             compute_connection_laplacian G R (Some "sym"%string)
             = Raise NotImplementedError).
Proof.
  split.
  - unfold compute_connection_laplacian.
    destruct (order G =? 0); [eexists; reflexivity|].
    destruct (compute_laplacian G None) as [L|e]; simpl;
      [|eexists; reflexivity].
    destruct (multiply (kron_ones L (sp_rows R / order G)) R) as [Lc|e]; simpl;
      eexists; reflexivity.
  - intros d Hn Hr Hc.
    destruct (connection_laplacian_none G R d Hn Hr Hc) as (Lc & HLc & _).
    unfold compute_connection_laplacian in *.
    destruct (order G =? 0); [discriminate HLc|].
    destruct (compute_laplacian G None) as [L|e]; simpl in *;
      [|discriminate HLc].
    destruct (multiply (kron_ones L (sp_rows R / order G)) R) as [Lc'|e];
      simpl in *; [reflexivity | discriminate HLc].
Qed.

Lemma edge_and_isolated_symmetric : symmetric_weights edge_and_isolated.
Proof. intros u v. apply sym_adj_symmetric. Qed.

Lemma transport_edge_and_isolated_symmetric (r c : nat) :
  (todenseQ transport_edge_and_isolated r c ==
   todenseQ transport_edge_and_isolated c r)%Q.
Proof.
  unfold todenseQ, transport_edge_and_isolated, in_shape, has_edge; simpl.
  rewrite (andb_comm (r <? 3)), (Nat.eqb_sym r c).
  rewrite (sym_adj_symmetric _ r c). reflexivity.
Qed.

(** X3 at the graph with the edge 0 - 1 and the isolated node 2. *)
Lemma connection_laplacian_symmetric_witness :
  exists Lc,
    compute_connection_laplacian
      edge_and_isolated transport_edge_and_isolated None = Ok Lc /\
    forall r c, r < order edge_and_isolated * 1 ->
                c < order edge_and_isolated * 1 ->
                todense Lc r c =f= todense Lc c r.
Proof.
  apply (connection_laplacian_symmetric
           edge_and_isolated transport_edge_and_isolated 1
           order_edge_and_isolated eq_refl eq_refl
           edge_and_isolated_symmetric
           transport_edge_and_isolated_symmetric).
Defined.

(** X4 at the same graph, block [(0, 1)]: the entry is [-1 / deg(0)],
    with [deg(0) = 1]. *)
Lemma connection_laplacian_rw_scales_rows_witness :
  exists Lrw,
    compute_connection_laplacian
      edge_and_isolated transport_edge_and_isolated (Some "rw"%string)
    = Ok Lrw /\
    block_entry Lrw 1 0 1 0 0 =f=
    Fin (1 / inject_Z (Z.of_nat (degree edge_and_isolated
                                   (node_at edge_and_isolated 0)))
         * (laplacian_entry edge_and_isolated 0 1
            * block_entryQ transport_edge_and_isolated 1 0 1 0 0)).
Proof.
  apply (connection_laplacian_rw_scales_rows
           edge_and_isolated transport_edge_and_isolated 1
           order_edge_and_isolated eq_refl eq_refl 0 1 0 0).
  - vm_compute. lia.
  - vm_compute. lia.
  - lia.
  - lia.
  - vm_compute. discriminate.
Defined.

(** X5 at the same graph. *)
Lemma connection_laplacian_sym_raises_witness :
  compute_connection_laplacian
    edge_and_isolated transport_edge_and_isolated (Some "sym"%string)
  = Raise NotImplementedError.
Proof.
  apply (proj2 (connection_laplacian_sym_raises
                  edge_and_isolated transport_edge_and_isolated) 1).
  - exact order_edge_and_isolated.
  - reflexivity.
  - reflexivity.
Defined.

(** ** Further properties of the spectrum *)

Section SpectrumMore.

Variable solver : eigen_solver.

(** **** X7 -- a request for no eigen-pair at all is refused by the
    solver front end: [compute_spectrum(L, 0)] raises a value error and
    prints nothing when [L] has rows, and for a matrix without rows every
    request is clipped to zero, the notice is printed and the same error
    follows. *)
Theorem compute_spectrum_zero_request (L : matrix_arg) :
  (0 < shape0 L ->
   compute_spectrum solver L (Some 0) = ([], Raise ValueError)) /\
  (shape0 L = 0 ->
   forall k, compute_spectrum solver L k
             = ([reduced_message], Raise ValueError)).
Proof.
  split.
  - intro Hm. unfold compute_spectrum.
    replace (shape0 L <=? 0) with false
      by (symmetry; apply Nat.leb_gt; exact Hm).
    reflexivity.
  - intros Hz k. unfold compute_spectrum. rewrite Hz.
    destruct k as [k|]; reflexivity.
Qed.

Lemma scaled_column_dot (V : ndarray) (k j l : nat) :
  column_dot (div_scalar (take_cols V k) (sqrt (INR (nrows V)))) j l =
  (column_dot V j l / INR (nrows V))%R.
Proof.
  unfold column_dot, div_scalar, take_cols; simpl.
  destruct (nrows V) as [|n] eqn:En.
  - unfold Rsum; simpl. unfold Rdiv. ring.
  - assert (Hpos : (0 < INR (S n))%R) by (apply lt_0_INR; lia).
    assert (Hs : (sqrt (INR (S n)) <> 0)%R).
    { intro H0. assert (H := sqrt_INR_sq (S n)). rewrite H0 in H. lra. }
    rewrite (Rsum_ext _ (fun i => / INR (S n) *
                                  (arr_at V i j * arr_at V i l))%R).
    + rewrite Rsum_scal. unfold Rdiv. ring.
    + intros i _. rewrite <- (sqrt_INR_sq (S n)) at 3. field. exact Hs.
Qed.

(** **** X8 -- the eigenvalues [compute_spectrum] returns are those of
    the solver, unchanged, and the inner product of any two returned
    eigenvector columns is the inner product of the solver's columns
    divided by the number of rows: columns the solver returns orthogonal
    stay orthogonal. *)
Theorem compute_spectrum_keeps_orthogonality
  (L : matrix_arg) (k : option nat) (evals : list R) (evecs : ndarray) :
  snd (compute_spectrum solver L k) = Ok (evals, evecs) ->
  exists k' V,
    eigsh solver L k' = Ok (evals, V) /\
    (forall j l,
       column_dot evecs j l = (column_dot V j l / INR (nrows V))%R) /\
    (forall j l, column_dot V j l = 0%R -> column_dot evecs j l = 0%R).
Proof.
  intro H.
  destruct (compute_spectrum_inv solver L k evals evecs H) as (k' & V & HV & ->).
  exists k', V. split; [exact HV|].
  split.
  - intros j l. apply scaled_column_dot.
  - intros j l Hz. rewrite scaled_column_dot, Hz. unfold Rdiv. ring.
Qed.

End SpectrumMore.

(** X7 at the Laplacian of the path 0 - 1 - 2 and at a matrix without
    rows. *)
Lemma compute_spectrum_zero_request_witness :
  compute_spectrum constant_solver (SparseArg (unnormalised path3)) (Some 0)
  = ([], Raise ValueError) /\
  compute_spectrum constant_solver (DenseArg 0 0 (fun _ _ => Fin 0)) (Some 2)
  = ([reduced_message], Raise ValueError).
Proof.
  split.
  - apply (proj1 (compute_spectrum_zero_request
                    constant_solver (SparseArg (unnormalised path3)))).
    vm_compute. lia.
  - apply (proj2 (compute_spectrum_zero_request
                    constant_solver (DenseArg 0 0 (fun _ _ => Fin 0)))).
    reflexivity.
Defined.

(** X8 at the 4-cycle. *)
Lemma compute_spectrum_keeps_orthogonality_witness :
  exists k' V,
    eigsh constant_solver (SparseArg (unnormalised cycle4)) k'
    = Ok ([0%R], V) /\
    (forall j l,
       column_dot (div_scalar (take_cols (snd constant_pair) 1)
                     (sqrt (INR (nrows (snd constant_pair))))) j l
       = (column_dot V j l / INR (nrows V))%R) /\
    (forall j l,
       column_dot V j l = 0%R ->
       column_dot (div_scalar (take_cols (snd constant_pair) 1)
                     (sqrt (INR (nrows (snd constant_pair))))) j l = 0%R).
Proof.
  apply (compute_spectrum_keeps_orthogonality
           constant_solver (SparseArg (unnormalised cycle4)) (Some 1)
           [0%R] _ compute_spectrum_cycle4).
Defined.

(** ** Further properties of the diffusion *)

Lemma Rsum_plus (f g : nat -> R) (n : nat) :
  Rsum (fun i => f i + g i)%R n = (Rsum f n + Rsum g n)%R.
Proof.
  unfold Rsum. induction (seq 0 n) as [|x l IH]; simpl.
  - ring.
  - rewrite IH. ring.
Qed.

Section DiffusionMore.

Variable expm : ndarray -> ndarray.

(** **** X9 -- with the method ["spectral"], its default,
    [vector_diffusion] never returns a field: whatever the arguments, the
    call ends in an exception. *)
Theorem vector_diffusion_spectral_raises
  (x : ndarray) (t : R) (Lc : operator) (L : option operator)
  (normalise : bool) :
  exists tr e,
    vector_diffusion expm x t Lc L "spectral" normalise = (tr, Raise e).
Proof.
  unfold vector_diffusion.
  destruct Lc as [M | evals evecs].
  - eexists. eexists. reflexivity.
  - change (blocked_dim "spectral" (OpPair evals evecs))
      with (@Ok nat (List.length evals)).
    cbn [lift tbind].
    destruct (size_check (nrows x) (ncols x) (List.length evals))
      as [[|]|e]; cbn [tbind negb app];
      eexists; eexists; reflexivity.
Qed.

(** **** X10 -- diffusion by the matrix exponential is linear in the
    field: the diffusion of [a x1 + b x2] is [a] times the diffusion of
    [x1] plus [b] times the diffusion of [x2]. *)
Theorem scalar_diffusion_linear
  (x1 x2 y1 y2 : ndarray) (a b t : R) (M : spmatrix R) :
  nrows x1 = nrows x2 -> ncols x1 = ncols x2 ->
  scalar_diffusion expm (Arr x1) t "matrix_exp" (Some (OpMatrix M)) = Ok y1 ->
  scalar_diffusion expm (Arr x2) t "matrix_exp" (Some (OpMatrix M)) = Ok y2 ->
  exists y,
    scalar_diffusion expm (Arr (lincomb a x1 b x2)) t "matrix_exp"
      (Some (OpMatrix M)) = Ok y /\
    arr_eq y (lincomb a y1 b y2).
Proof.
  intros Hr Hc. unfold scalar_diffusion. cbn [as_column bind].
  change (String.eqb "matrix_exp" "matrix_exp") with true. cbv iota zeta.
  destruct (nrows (todenseR M) =? ncols (todenseR M)); [|discriminate].
  unfold matmul. cbn [nrows ncols lincomb].
  rewrite <- Hr.
  destruct (ncols (expm (scale (- t) (todenseR M))) =? nrows x1);
    [|discriminate].
  intros H1 H2. injection H1 as <-. injection H2 as <-.
  eexists. split; [reflexivity|].
  unfold arr_eq; cbn [nrows ncols arr_at lincomb].
  split; [reflexivity|]. split; [reflexivity|].
  intros i j _ _.
  rewrite <- !Rsum_scal, <- Rsum_plus.
  apply Rsum_ext. intros k _. ring.
Qed.

Hypothesis expm_zero :
  forall A n, is_zero_square A n -> is_identity (expm A) n.

Lemma reshape_back (x : ndarray) (nd i j : nat) :
  0 < nd -> Nat.divide nd (nrows x * ncols x) ->
  i < nrows x -> j < ncols x ->
  let c := (nrows x * ncols x) / nd in
  let f := i * ncols x + j in
  f / c < nd /\ f mod c < c /\
  ((f / c) * c + f mod c) / ncols x = i /\
  ((f / c) * c + f mod c) mod ncols x = j.
Proof.
  intros Hnd [q Hq] Hi Hj c f.
  assert (Hc : c = q).
  { unfold c. rewrite Hq. apply Nat.div_mul. lia. }
  assert (Hf : f < nrows x * ncols x) by (unfold f; nia).
  assert (Hqpos : 0 < q) by (destruct q; [lia | lia]).
  assert (Hfc : (f / c) * c + f mod c = f).
  { rewrite Nat.mul_comm. symmetry. apply Nat.div_mod_eq. }
  rewrite Hfc. rewrite Hc.
  split; [apply Nat.Div0.div_lt_upper_bound; nia|].
  split; [apply Nat.mod_upper_bound; lia|].
  unfold f. split.
  - apply block_div. exact Hj.
  - rewrite Nat.add_comm, Nat.Div0.mod_add. apply Nat.mod_small. exact Hj.
Qed.

(** **** X11 -- without normalisation and with the matrix exponential,
    [vector_diffusion] for no time returns the field it was given: the
    reshaping to the blocked dimension and back is undone exactly. *)
Theorem vector_diffusion_identity_at_zero_time
  (x : ndarray) (M : spmatrix R) (L : option operator) :
  sp_rows M = sp_cols M -> 0 < sp_rows M ->
  Nat.divide (sp_rows M) (nrows x * ncols x) ->
  exists out,
    vector_diffusion expm x 0 (OpMatrix M) L "matrix_exp" false
    = ([Diffusion (Some (OpMatrix M))], Ok out) /\
    arr_eq out x.
Proof.
  intros Hsq Hnd Hdiv.
  set (nd := sp_rows M) in *.
  set (c := (nrows x * ncols x) / nd).
  assert (Hsize : nd * c = nrows x * ncols x).
  { destruct Hdiv as [q Hq]. unfold c. rewrite Hq, Nat.div_mul by lia. lia. }
  unfold vector_diffusion.
  change (blocked_dim "matrix_exp" (OpMatrix M)) with (@Ok nat nd).
  cbn [lift tbind].
  unfold size_check.
  replace (nd =? 0) with false by (symmetry; apply Nat.eqb_neq; lia).
  replace ((nrows x * ncols x) mod nd =? 0) with true.
  2:{ symmetry. apply Nat.eqb_eq. apply Nat.Lcm0.mod_divide. exact Hdiv. }
  cbn [tbind negb app]. fold c.
  unfold call_scalar_diffusion, scalar_diffusion. cbn [as_column bind].
  change (String.eqb "matrix_exp" "matrix_exp") with true. cbv iota.
  change (nrows (todenseR M)) with nd.
  change (ncols (todenseR M)) with (sp_cols M).
  rewrite <- Hsq. fold nd. rewrite Nat.eqb_refl. cbv zeta.
  destruct (matmul_identity (expm (scale (- 0) (todenseR M)))
              (reshape x nd c))
    as (y & Hy & Hyr & Hyc & Hye).
  { apply expm_zero. apply scaled_by_zero_time. exact Hsq. }
  rewrite Hy. cbn [tbind app].
  cbn [reshape nrows ncols] in Hyr, Hyc, Hye.
  rewrite Hyr, Hyc, Hsize, Nat.eqb_refl. cbn [negb].
  eexists. split; [reflexivity|].
  unfold arr_eq. cbn [reshape nrows ncols arr_at].
  split; [reflexivity|]. split; [reflexivity|].
  intros i j Hi Hj. rewrite Hyc.
  destruct (reshape_back x nd i j Hnd Hdiv Hi Hj) as (H1 & H2 & H3 & H4).
  fold c in H1, H2, H3, H4.
  rewrite Hye by (rewrite ?Hyr, ?Hyc; assumption).
  cbn [arr_at reshape]. cbv zeta. rewrite H3, H4. reflexivity.
Qed.

End DiffusionMore.

(** X10 for a Taylor polynomial as the matrix exponential, the field
    [field_2x2] and the all-ones field. *)
Lemma scalar_diffusion_linear_witness :
  exists y1 y2 y,
    scalar_diffusion (expm_taylor 4) (Arr field_2x2) 1 "matrix_exp"
      (Some (zero_operator 2)) = Ok y1 /\
    scalar_diffusion (expm_taylor 4) (Arr (ones 2 2)) 1 "matrix_exp"
      (Some (zero_operator 2)) = Ok y2 /\
    scalar_diffusion (expm_taylor 4) (Arr (lincomb 2 field_2x2 3 (ones 2 2)))
      1 "matrix_exp" (Some (zero_operator 2)) = Ok y /\
    arr_eq y (lincomb 2 y1 3 y2).
Proof.
  eexists. eexists.
  assert (H1 : scalar_diffusion (expm_taylor 4) (Arr field_2x2) 1
                 "matrix_exp" (Some (zero_operator 2)) = Ok _)
    by reflexivity.
  assert (H2 : scalar_diffusion (expm_taylor 4) (Arr (ones 2 2)) 1
                 "matrix_exp" (Some (zero_operator 2)) = Ok _)
    by reflexivity.
  destruct (scalar_diffusion_linear (expm_taylor 4)
              field_2x2 (ones 2 2) _ _ 2 3 1 (mkSp 2 2 (fun _ _ => None))
              eq_refl eq_refl H1 H2) as (y & Hy & Heq).
  exists y. split; [exact H1|]. split; [exact H2|].
  split; [exact Hy | exact Heq].
Defined.

Lemma four_divides_four : Nat.divide 4 (2 * 2).
Proof. exists 1. reflexivity. Qed.

(** X11 for the field [field_2x2] and an operator of order 4. *)
Lemma vector_diffusion_identity_at_zero_time_witness :
  exists out,
    vector_diffusion (expm_taylor 4) field_2x2 0 (zero_operator 4) None
      "matrix_exp" false
    = ([Diffusion (Some (zero_operator 4))], Ok out) /\
    arr_eq out field_2x2.
Proof.
  apply (vector_diffusion_identity_at_zero_time
           (expm_taylor 4) (expm_taylor_zero 4) field_2x2
           (mkSp 4 4 (fun _ _ => None)) None).
  - reflexivity.
  - simpl. lia.
  - exact four_divides_four.
Defined.

(** ** Further properties of furthest point sampling *)

Lemma Qle_bool_false_lt (a b : Q) : Qle_bool a b = false -> (b < a)%Q.
Proof.
  intro H. apply Qnot_le_lt. intro Hle.
  apply Qle_bool_iff in Hle. rewrite Hle in H. discriminate H.
Qed.

Lemma assign_length {A : Type} (a : list A) (i : nat) (v : A) :
  List.length (assign a i v) = List.length a.
Proof.
  revert i. induction a as [|h a IH]; intro i; simpl.
  - reflexivity.
  - destruct i; simpl; [reflexivity | rewrite IH; reflexivity].
Qed.

Lemma assign_Forall {A : Type} (P : A -> Prop) (a : list A) (i : nat) (v : A) :
  Forall P a -> P v -> Forall P (assign a i v).
Proof.
  intros Ha Hv. revert i.
  induction Ha as [|h a Hh Ha IH]; intro i; simpl.
  - constructor.
  - destruct i; constructor; auto.
Qed.

Lemma assign_firstn {A : Type} (a : list A) (i : nat) (v : A) :
  firstn i (assign a i v) = firstn i a.
Proof.
  revert i. induction a as [|h a IH]; intro i; simpl.
  - reflexivity.
  - destruct i; simpl; [reflexivity | rewrite IH; reflexivity].
Qed.

Lemma assign_firstn_S {A : Type} (a : list A) (i : nat) (v : A) :
  i < List.length a ->
  firstn (S i) (assign a i v) = firstn i a ++ [v].
Proof.
  revert i. induction a as [|h a IH]; intros i Hi; simpl in *.
  - lia.
  - destruct i; simpl.
    + reflexivity.
    + rewrite <- IH by lia. reflexivity.
Qed.

Lemma assign_nth {A : Type} (a : list A) (i : nat) (v d : A) :
  i < List.length a -> nth i (assign a i v) d = v.
Proof.
  revert i. induction a as [|h a IH]; intros i Hi; simpl in *.
  - lia.
  - destruct i; simpl; [reflexivity | apply IH; lia].
Qed.

Lemma minimum_length (a b : list Q) :
  List.length (minimum a b) = Nat.min (List.length a) (List.length b).
Proof.
  revert b. induction a as [|x a IH]; intros [|y b]; simpl; auto.
Qed.

Lemma Qminb_le_l (x y : Q) : (Qminb x y <= x)%Q.
Proof.
  unfold Qminb. destruct (Qle_bool x y) eqn:E.
  - apply Qle_refl.
  - apply Qlt_le_weak. apply Qle_bool_false_lt. exact E.
Qed.

Lemma minimum_bounded (a b : list Q) (B : Q) :
  (forall v, In v a -> (v <= B)%Q) ->
  forall v, In v (minimum a b) -> (v <= B)%Q.
Proof.
  revert b. induction a as [|x a IH]; intros [|y b] Ha v Hv; simpl in Hv;
    try contradiction.
  destruct Hv as [<- | Hv].
  - apply Qle_trans with x; [apply Qminb_le_l | apply Ha; left; reflexivity].
  - apply (IH b); [|exact Hv]. intros u Hu. apply Ha. right; exact Hu.
Qed.

(** [argmax] returns a position of the list that holds a largest entry. *)
Lemma argmax_from_spec (pre ds : list Q) (best : Q) (besti : nat) :
  besti < List.length pre ->
  nth besti pre 0%Q = best ->
  (forall v, In v pre -> (v <= best)%Q) ->
  let r := argmax_from best besti (List.length pre) ds in
  r < List.length (pre ++ ds) /\
  forall v, In v (pre ++ ds) -> (v <= nth r (pre ++ ds) 0)%Q.
Proof.
  revert pre best besti.
  induction ds as [|v ds IH]; intros pre best besti Hi Hbest Hpre; simpl.
  - rewrite app_nil_r. split; [exact Hi|]. rewrite Hbest. exact Hpre.
  - assert (Happ : pre ++ v :: ds = (pre ++ [v]) ++ ds)
      by (rewrite <- app_assoc; reflexivity).
    assert (Hlen : S (List.length pre) = List.length (pre ++ [v]))
      by (rewrite length_app; simpl; lia).
    rewrite Happ, Hlen.
    destruct (Qle_bool v best) eqn:E.
    + apply IH.
      * rewrite <- Hlen. lia.
      * rewrite app_nth1 by exact Hi. exact Hbest.
      * intros u Hu. apply in_app_or in Hu. destruct Hu as [Hu | [<- | []]].
        -- apply Hpre. exact Hu.
        -- apply Qle_bool_iff. exact E.
    + apply IH.
      * rewrite <- Hlen. lia.
      * rewrite app_nth2 by lia. rewrite Nat.sub_diag. reflexivity.
      * assert (Hlt := Qle_bool_false_lt _ _ E).
        intros u Hu. apply in_app_or in Hu. destruct Hu as [Hu | [<- | []]].
        -- apply Qle_trans with best; [apply Hpre; exact Hu|].
           apply Qlt_le_weak. exact Hlt.
        -- apply Qle_refl.
Qed.

Lemma argmax_spec (ds : list Q) :
  ds <> [] ->
  argmax ds < List.length ds /\
  forall v, In v ds -> (v <= nth (argmax ds) ds 0)%Q.
Proof.
  destruct ds as [|v ds]; [contradiction|]. intros _.
  unfold argmax.
  apply (argmax_from_spec [v] ds v 0).
  - simpl. lia.
  - reflexivity.
  - intros u [<- | []]. apply Qle_refl.
Qed.

Lemma descending_cons (a : Q) (t : list Q) :
  descending t -> (forall v, In v t -> (v <= a)%Q) -> descending (a :: t).
Proof.
  intros Ht Hb. destruct t as [|b t]; simpl; [exact I|].
  split; [apply Hb; left; reflexivity | exact Ht].
Qed.

Lemma square_row (D : list (list Q)) (m idx : nat) :
  square_matrix D m -> idx < m -> List.length (nth idx D []) = m.
Proof.
  intros [Hlen Hrows] Hidx.
  rewrite Forall_forall in Hrows. apply Hrows. apply nth_In. lia.
Qed.

Lemma pairwise_distances_square
  (dist : point -> point -> Q) (x : list point) (D : list (list Q)) :
  pairwise_distances dist x = Ok D -> square_matrix D (List.length x).
Proof.
  unfold pairwise_distances.
  destruct (check_array x); simpl; [|discriminate].
  intro H. injection H as <-. split.
  - apply length_map.
  - apply Forall_forall. intros row Hrow.
    apply in_map_iff in Hrow. destruct Hrow as (p & <- & _).
    apply length_map.
Qed.

Lemma firstn_keeps_Forall {A : Type} (P : A -> Prop) (n : nat) (l : list A) :
  Forall P l -> Forall P (firstn n l).
Proof.
  intro H. revert n. induction H as [|h l Hh Hl IH]; intro n.
  - rewrite firstn_nil. constructor.
  - destruct n; simpl; constructor; auto.
Qed.

Section SamplingLoop.

Variable D : list (list Q).
Variable m : nat.
Variable diam : Q.
Variable N : option nat.
Variable stop_crit : Q.

Hypothesis D_square : square_matrix D m.
Hypothesis m_pos : 0 < m.

Lemma ds_nonempty (ds : list Q) : List.length ds = m -> ds <> [].
Proof. intros H ->. simpl in H. lia. Qed.

Lemma next_ds_length (ds : list Q) :
  List.length ds = m ->
  List.length (minimum ds (nth (argmax ds) D [])) = m.
Proof.
  intro Hds. rewrite minimum_length, Hds.
  rewrite (square_row D m (argmax ds) D_square).
  - apply Nat.min_id.
  - rewrite <- Hds. apply argmax_spec. apply ds_nonempty. exact Hds.
Qed.

(** The loop keeps [perm] and [lambdas] of one length, only shortens them
    when no sample size is given, and writes valid indices only. *)
Lemma sampling_loop_perm (k : nat) :
  forall (s : nat) (perm : list nat) (lambdas ds : list Q),
    List.length ds = m ->
    List.length perm = s + k -> List.length lambdas = s + k ->
    Forall (fun i => i < m) perm ->
    let r := sampling_loop D diam N stop_crit (seq s k) perm lambdas ds in
    List.length (fst r) = List.length (snd r) /\
    s <= List.length (fst r) <= s + k /\
    (N <> None -> List.length (fst r) = s + k) /\
    Forall (fun i => i < m) (fst r).
Proof.
  induction k as [|k IH]; intros s perm lambdas ds Hds Hp Hl Hperm.
  - simpl. repeat split; try lia. exact Hperm.
  - cbn [seq sampling_loop].
    assert (Hidx : argmax ds < m).
    { rewrite <- Hds. apply argmax_spec. apply ds_nonempty. exact Hds. }
    match goal with
    | |- context [if ?c then _ else _] => destruct c eqn:Estop
    end.
    + cbn [fst snd]. rewrite !length_firstn, !assign_length, Hp, Hl.
      repeat split; try lia.
      * intro HN. destruct N; [discriminate Estop | contradiction].
      * apply firstn_keeps_Forall. apply assign_Forall; assumption.
    + destruct (IH (S s) (assign perm s (argmax ds))
                  (assign lambdas s (nth (argmax ds) ds 0%Q))
                  (minimum ds (nth (argmax ds) D [])))
        as (H1 & H2 & H3 & H4).
      * apply next_ds_length. exact Hds.
      * rewrite assign_length. lia.
      * rewrite assign_length. lia.
      * apply assign_Forall; assumption.
      * cbv zeta in H1, H2, H3, H4.
        repeat split; try assumption; try lia.
        intro HN. rewrite (H3 HN). lia.
Qed.

(** What the loop writes to [lambdas] from position [s] on never
    increases, and without a sample size every distance it keeps passed
    the stopping test. *)
Lemma sampling_loop_lambdas (k : nat) :
  forall (s : nat) (perm : list nat) (lambdas ds : list Q) (B : Q),
    List.length ds = m ->
    List.length lambdas = s + k ->
    (forall v, In v ds -> (v <= B)%Q) ->
    exists tail,
      snd (sampling_loop D diam N stop_crit (seq s k) perm lambdas ds)
      = firstn s lambdas ++ tail /\
      descending tail /\
      (forall v, In v tail -> (v <= B)%Q) /\
      (N = None ->
       forall v, In v tail ->
         fltb (fdiv (Fin v) (Fin diam)) (Fin stop_crit) = false).
Proof.
  induction k as [|k IH]; intros s perm lambdas ds B Hds Hl HB.
  - exists []. simpl. rewrite app_nil_r.
    split; [symmetry; apply firstn_all2; lia|].
    repeat split; try exact I; intros; contradiction.
  - cbn [seq sampling_loop].
    destruct (argmax_spec ds (ds_nonempty ds Hds)) as [Hidx Hmax].
    set (idx := argmax ds) in *.
    set (lam := nth idx ds 0%Q) in *.
    assert (Hlam : (lam <= B)%Q) by (apply HB; apply nth_In; exact Hidx).
    assert (Hnth : nth s (assign lambdas s lam) 0%Q = lam)
      by (apply assign_nth; lia).
    match goal with
    | |- context [if ?c then _ else _] => destruct c eqn:Estop
    end.
    + exists []. cbn [snd]. rewrite app_nil_r, assign_firstn.
      split; [reflexivity|].
      repeat split; try exact I; intros; contradiction.
    + destruct (IH (S s) (assign perm s idx) (assign lambdas s lam)
                  (minimum ds (nth idx D [])) lam)
        as (tail & Htail & Hdesc & Hbound & Hkeep).
      * apply next_ds_length. exact Hds.
      * rewrite assign_length. lia.
      * apply minimum_bounded. exact Hmax.
      * exists (lam :: tail). rewrite Htail.
        rewrite assign_firstn_S by lia. rewrite <- app_assoc.
        split; [reflexivity|]. split.
        -- apply descending_cons; assumption.
        -- split.
           ++ intros v [<- | Hv]; [exact Hlam|].
              apply Qle_trans with lam; [apply Hbound; exact Hv | exact Hlam].
           ++ intros HN v [<- | Hv].
              ** rewrite HN in Estop. rewrite Hnth in Estop. exact Estop.
              ** apply Hkeep; assumption.
Qed.

End SamplingLoop.

Section SamplingMore.

Variable dist : point -> point -> Q.

(** A returned sample, taken apart. *)
Lemma furthest_point_sampling_inv
  (x : list point) (N : option nat) (stop_crit : Q) (start_idx : nat)
  (perm : list nat) (lam : option (list Q)) :
  ~ (stop_crit == 0)%Q ->
  furthest_point_sampling dist x N stop_crit start_idx = Ok (perm, lam) ->
  exists D diam ds lambdas,
    let n := match N with None => List.length D | Some k => k end in
    pairwise_distances dist x = Ok D /\
    matrix_max D = Ok diam /\
    nth_error D 5 = Some ds /\
    1 <= n /\
    lam = Some lambdas /\
    sampling_loop D diam N stop_crit (seq 1 (n - 1))
      (assign (repeat 0 n) 0 5) (repeat 0%Q n) ds = (perm, lambdas).
Proof.
  intros Hsc. unfold furthest_point_sampling.
  destruct (Qeq_bool stop_crit 0) eqn:E;
    [apply Qeq_bool_eq in E; contradiction|].
  destruct (pairwise_distances dist x) as [D|e] eqn:ED; cbn [bind];
    [|discriminate].
  destruct (matrix_max D) as [diam|e] eqn:Ediam; cbn [bind]; [|discriminate].
  set (n := match N with None => List.length D | Some k => k end).
  unfold setitem. rewrite repeat_length.
  destruct (0 <? n) eqn:En; cbn [bind]; [|discriminate].
  unfold getrow.
  destruct (nth_error D 5) as [ds|] eqn:Eds; cbn [bind]; [|discriminate].
  destruct (sampling_loop D diam N stop_crit (seq 1 (n - 1))
              (assign (repeat 0 n) 0 5) (repeat 0%Q n) ds)
    as [perm' lambdas'] eqn:Eloop.
  intro H. injection H as <- <-.
  exists D, diam, ds, lambdas'. cbv zeta.
  apply Nat.ltb_lt in En.
  split; [reflexivity|]. split; [exact Ediam|]. split; [exact Eds|].
  split; [exact En|]. split; [reflexivity | exact Eloop].
Qed.

Lemma initial_perm_valid (n m : nat) :
  5 < m -> Forall (fun i => i < m) (assign (repeat 0 n) 0 5).
Proof.
  intro Hm. apply assign_Forall; [|exact Hm].
  apply Forall_forall. intros i Hi. apply repeat_spec in Hi. lia.
Qed.

Lemma row_five (D : list (list Q)) (m : nat) (ds : list Q) :
  square_matrix D m -> nth_error D 5 = Some ds ->
  5 < m /\ List.length ds = m.
Proof.
  intros [Hlen Hrows] Hds.
  assert (H5 : 5 < List.length D) by (apply nth_error_Some; congruence).
  split; [lia|].
  rewrite Forall_forall in Hrows. apply Hrows.
  apply nth_error_In with 5. exact Hds.
Qed.

(** **** X12 -- a sample [furthest_point_sampling] returns has as many
    indices as distances, at least one; it has exactly [N] of them when
    [N] is given, even when [N] exceeds the number of points, and at most
    as many as there are points otherwise. *)
Theorem sampling_output_lengths
  (x : list point) (N : option nat) (stop_crit : Q) (start_idx : nat)
  (perm : list nat) (lam : option (list Q)) :
  ~ (stop_crit == 0)%Q ->
  furthest_point_sampling dist x N stop_crit start_idx = Ok (perm, lam) ->
  exists lambdas,
    lam = Some lambdas /\
    List.length perm = List.length lambdas /\
    1 <= List.length perm /\
    (forall n, N = Some n -> List.length perm = n) /\
    (N = None -> List.length perm <= List.length x).
Proof.
  intros Hsc H.
  destruct (furthest_point_sampling_inv x N stop_crit start_idx perm lam Hsc H)
    as (D & diam & ds & lambdas & HD & _ & Hds & Hn & -> & Hloop).
  cbv zeta in Hn, Hloop.
  set (n := match N with None => List.length D | Some k => k end) in *.
  assert (Hsq := pairwise_distances_square dist x D HD).
  destruct (row_five D _ ds Hsq Hds) as [H5 Hlen].
  destruct (sampling_loop_perm D (List.length x) diam N stop_crit Hsq
              ltac:(lia) (n - 1) 1
              (assign (repeat 0 n) 0 5) (repeat 0%Q n) ds Hlen)
    as (H1 & H2 & H3 & _).
  - rewrite assign_length, repeat_length. lia.
  - rewrite repeat_length. lia.
  - apply initial_perm_valid. exact H5.
  - cbv zeta in H1, H2, H3. rewrite Hloop in H1, H2, H3.
    cbn [fst snd] in H1, H2, H3.
    exists lambdas. split; [reflexivity|]. split; [exact H1|].
    split; [lia|]. split.
    + intros k HN. rewrite H3 by (rewrite HN; discriminate).
      assert (Hnk : n = k) by (unfold n; rewrite HN; reflexivity).
      lia.
    + intro HN.
      assert (Hnk : n = List.length D) by (unfold n; rewrite HN; reflexivity).
      destruct Hsq as [HlenD _]. lia.
Qed.

(** **** X13 -- every index of a returned sample is the index of a point
    of the input. *)
Theorem sampling_indices_valid
  (x : list point) (N : option nat) (stop_crit : Q) (start_idx : nat)
  (perm : list nat) (lam : option (list Q)) :
  ~ (stop_crit == 0)%Q ->
  furthest_point_sampling dist x N stop_crit start_idx = Ok (perm, lam) ->
  Forall (fun i => i < List.length x) perm.
Proof.
  intros Hsc H.
  destruct (furthest_point_sampling_inv x N stop_crit start_idx perm lam Hsc H)
    as (D & diam & ds & lambdas & HD & _ & Hds & Hn & -> & Hloop).
  cbv zeta in Hn, Hloop.
  set (n := match N with None => List.length D | Some k => k end) in *.
  assert (Hsq := pairwise_distances_square dist x D HD).
  destruct (row_five D _ ds Hsq Hds) as [H5 Hlen].
  destruct (sampling_loop_perm D (List.length x) diam N stop_crit Hsq
              ltac:(lia) (n - 1) 1
              (assign (repeat 0 n) 0 5) (repeat 0%Q n) ds Hlen)
    as (_ & _ & _ & H4).
  - rewrite assign_length, repeat_length. lia.
  - rewrite repeat_length. lia.
  - apply initial_perm_valid. exact H5.
  - cbv zeta in H4. rewrite Hloop in H4. exact H4.
Qed.

Lemma sampled_lambdas
  (x : list point) (N : option nat) (stop_crit : Q) (start_idx : nat)
  (perm : list nat) (lam : option (list Q)) :
  ~ (stop_crit == 0)%Q ->
  furthest_point_sampling dist x N stop_crit start_idx = Ok (perm, lam) ->
  exists D diam tail,
    pairwise_distances dist x = Ok D /\
    matrix_max D = Ok diam /\
    lam = Some (0%Q :: tail) /\
    descending tail /\
    (N = None ->
     forall v, In v tail ->
       fltb (fdiv (Fin v) (Fin diam)) (Fin stop_crit) = false).
Proof.
  intros Hsc H.
  destruct (furthest_point_sampling_inv x N stop_crit start_idx perm lam Hsc H)
    as (D & diam & ds & lambdas & HD & Hdiam & Hds & Hn & -> & Hloop).
  cbv zeta in Hn, Hloop.
  set (n := match N with None => List.length D | Some k => k end) in *.
  assert (Hsq := pairwise_distances_square dist x D HD).
  destruct (row_five D _ ds Hsq Hds) as [H5 Hlen].
  destruct (argmax_spec ds) as [_ Hmax].
  { intros ->. simpl in Hlen. lia. }
  destruct (sampling_loop_lambdas D (List.length x) diam N stop_crit Hsq
              ltac:(lia) (n - 1) 1
              (assign (repeat 0 n) 0 5) (repeat 0%Q n) ds
              (nth (argmax ds) ds 0%Q) Hlen)
    as (tail & Htail & Hdesc & _ & Hkeep).
  - rewrite repeat_length. lia.
  - exact Hmax.
  - rewrite Hloop in Htail. cbn [snd] in Htail.
    exists D, diam, tail.
    split; [exact HD|]. split; [exact Hdiam|]. split.
    + rewrite Htail. destruct n; [lia | reflexivity].
    + split; assumption.
Qed.

(** **** X14 -- the distances of a returned sample start with the zero
    recorded for the seed and never increase from the second entry on. *)
Theorem sampling_distances_descending
  (x : list point) (N : option nat) (stop_crit : Q) (start_idx : nat)
  (perm : list nat) (lam : option (list Q)) :
  ~ (stop_crit == 0)%Q ->
  furthest_point_sampling dist x N stop_crit start_idx = Ok (perm, lam) ->
  exists tail, lam = Some (0%Q :: tail) /\ descending tail.
Proof.
  intros Hsc H.
  destruct (sampled_lambdas x N stop_crit start_idx perm lam Hsc H)
    as (_ & _ & tail & _ & _ & Hlam & Hdesc & _).
  exists tail. split; assumption.
Qed.

(** **** X15 -- when no sample size is given and the diameter of the
    point set is positive, every distance of a returned sample after the
    first is at least [stop_crit] times the diameter. *)
Theorem sampling_distances_above_threshold
  (x : list point) (stop_crit : Q) (start_idx : nat)
  (D : list (list Q)) (diam : Q) (perm : list nat) (lambdas : list Q) :
  ~ (stop_crit == 0)%Q ->
  pairwise_distances dist x = Ok D -> matrix_max D = Ok diam ->
  (0 < diam)%Q ->
  furthest_point_sampling dist x None stop_crit start_idx
  = Ok (perm, Some lambdas) ->
  forall v, In v (tl lambdas) -> (stop_crit * diam <= v)%Q.
Proof.
  intros Hsc HD Hdiam Hpos H v Hv.
  destruct (sampled_lambdas x None stop_crit start_idx perm _ Hsc H)
    as (D' & diam' & tail & HD' & Hdiam' & Hlam & _ & Hkeep).
  rewrite HD in HD'. injection HD' as <-.
  rewrite Hdiam in Hdiam'. injection Hdiam' as <-.
  injection Hlam as ->. simpl in Hv.
  assert (Hk := Hkeep eq_refl v Hv).
  unfold fdiv in Hk.
  destruct (Qeq_bool diam 0) eqn:E.
  { apply Qeq_bool_eq in E. rewrite E in Hpos.
    exfalso. apply (Qlt_irrefl 0). exact Hpos. }
  simpl in Hk. apply negb_false_iff in Hk. apply Qle_bool_iff in Hk.
  apply Qmult_le_compat_r with (z := diam) in Hk;
    [|apply Qlt_le_weak; exact Hpos].
  apply Qle_trans with (v / diam * diam)%Q; [exact Hk|].
  assert (Heq : (v / diam * diam == v)%Q).
  { field. intro Hz. rewrite Hz in Hpos. apply (Qlt_irrefl 0). exact Hpos. }
  rewrite Heq. apply Qle_refl.
Qed.

End SamplingMore.

Lemma three_tenths_not_zero : ~ (3 # 10 == 0)%Q.
Proof. intro H. discriminate H. Qed.

(** The sample of the eight points for the stopping fraction [3/10]: the
    fourth candidate, at distance 2 of a diameter of 10, ends the loop. *)
Lemma sampling_eight_points :
  furthest_point_sampling line_dist eight_points None (3 # 10) 0
  = Ok ([5; 0; 6], Some [0; 10; 5]%Q).
Proof. vm_compute. reflexivity. Qed.

(** The sample of three of the eight points. *)
Lemma sampling_three_of_eight :
  furthest_point_sampling line_dist eight_points (Some 3) (3 # 10) 0
  = Ok ([5; 0; 6], Some [0; 10; 5]%Q).
Proof. vm_compute. reflexivity. Qed.

(** X12 at the eight points, for three samples asked for. *)
Lemma sampling_output_lengths_witness :
  exists lambdas,
    Some [0; 10; 5]%Q = Some lambdas /\
    List.length [5; 0; 6] = List.length lambdas /\
    1 <= List.length [5; 0; 6] /\
    (forall n, Some 3 = Some n -> List.length [5; 0; 6] = n) /\
    (Some 3 = None -> List.length [5; 0; 6] <= List.length eight_points).
Proof.
  apply (sampling_output_lengths line_dist eight_points (Some 3) (3 # 10) 0
           [5; 0; 6] (Some [0; 10; 5]%Q)
           three_tenths_not_zero sampling_three_of_eight).
Defined.

(** X13 at the eight points. *)
Lemma sampling_indices_valid_witness :
  Forall (fun i => i < List.length eight_points) [5; 0; 6].
Proof.
  apply (sampling_indices_valid line_dist eight_points None (3 # 10) 0
           [5; 0; 6] (Some [0; 10; 5]%Q)
           three_tenths_not_zero sampling_eight_points).
Defined.

(** X14 at the eight points. *)
Lemma sampling_distances_descending_witness :
  exists tail, Some [0; 10; 5]%Q = Some (0%Q :: tail) /\ descending tail.
Proof.
  apply (sampling_distances_descending line_dist eight_points None (3 # 10) 0
           [5; 0; 6] (Some [0; 10; 5]%Q)
           three_tenths_not_zero sampling_eight_points).
Defined.

(** X15 at the eight points: the diameter is 10, the threshold 3. *)
Lemma sampling_distances_above_threshold_witness :
  Forall (fun v => ((3 # 10) * 10 <= v)%Q) [10; 5]%Q.
Proof.
  apply Forall_forall.
  eapply (sampling_distances_above_threshold line_dist eight_points (3 # 10) 0
            _ 10%Q [5; 0; 6] [0; 10; 5]%Q three_tenths_not_zero).
  - vm_compute. reflexivity.
  - vm_compute. reflexivity.
  - reflexivity.
  - exact sampling_eight_points.
Defined.

(** ** Further properties of the graph over a point set *)

Lemma list_sum_ge (l : list nat) (x : nat) : In x l -> x <= list_sum l.
Proof.
  induction l as [|y l IH]; simpl; intros Hx.
  - contradiction.
  - destruct Hx as [-> | Hx]; [lia | specialize (IH Hx); lia].
Qed.

Lemma from_sparse_array_symmetric (A : spmatrix Q) (u v : nat) :
  adj (from_sparse_array A) u v = adj (from_sparse_array A) v u.
Proof.
  unfold from_sparse_array; simpl.
  rewrite (Nat.max_comm u v), (Nat.min_comm u v). reflexivity.
Qed.

Section ManifoldGraphMore.

Variable neighbours : list point -> nat -> nat -> list nat.
Variable dist : point -> point -> Q.
Variable exp_ : Q -> Q.

Lemma set_pos_inv (G G' : Graph) (X : list point) :
  set_pos G X = Ok G' -> nodes G' = nodes G /\ adj G' = adj G.
Proof.
  unfold set_pos.
  destruct (forallb (fun i => i <? List.length X) (nodes G)); [|discriminate].
  intro H. injection H as <-. split; reflexivity.
Qed.

(** A returned graph comes from a square matrix of the order of the point
    set that stores entries inside its shape only. *)
Lemma manifold_graph_inv (X : list point) (typ : string) (k : nat) (G : Graph) :
  manifold_graph neighbours dist exp_ X typ k = Ok G ->
  exists A,
    nodes G = seq 0 (List.length X) /\
    adj G = adj (from_sparse_array A) /\
    (forall i j w, sp_at A i j = Some w ->
                   i < List.length X /\ j < List.length X) /\
    (typ = "knn"%string ->
     forall i, i < List.length X -> exists w, sp_at A i i = Some w).
Proof.
  unfold manifold_graph.
  destruct (String.eqb typ "knn") eqn:Eknn.
  - unfold kneighbors_graph.
    destruct (check_array X); cbn [bind]; [|discriminate].
    destruct ((k =? 0) || (List.length X <=? k)); cbn [bind]; [discriminate|].
    intro H. apply set_pos_inv in H. destruct H as [Hn Ha].
    eexists. split; [exact Hn|]. split; [exact Ha|]. split.
    + intros i j w. unfold add_eye. cbn [sp_at sp_rows sp_cols].
      destruct (in_shape (List.length X) (List.length X) i j) eqn:E;
        [|discriminate].
      intros _. unfold in_shape in E. apply andb_true_iff in E.
      destruct E as [Ei Ej].
      apply Nat.ltb_lt in Ei. apply Nat.ltb_lt in Ej. split; assumption.
    + intros _ i Hi. unfold add_eye. cbn [sp_at sp_rows sp_cols].
      rewrite (in_shape_true _ _ _ _ Hi Hi), Nat.eqb_refl.
      unfold todenseQ. cbn [sp_at].
      rewrite (in_shape_true _ _ _ _ Hi Hi). cbn [andb].
      destruct (mem i (neighbours X k i)); eexists; reflexivity.
  - destruct (String.eqb typ "affinity") eqn:Eaff; cbn [bind]; [|discriminate].
    unfold pairwise_distances.
    destruct (check_array X); cbn [bind]; [|discriminate].
    intro H. apply set_pos_inv in H. destruct H as [Hn Ha].
    eexists. split.
    + rewrite Hn. simpl. rewrite length_map. reflexivity.
    + split; [exact Ha|]. split.
      * intros i j w. unfold affinity_matrix. cbn [sp_at].
        rewrite length_map.
        destruct (in_shape (List.length X) (List.length X) i j) eqn:E;
          [|discriminate].
        intros _. unfold in_shape in E. apply andb_true_iff in E.
        destruct E as [Ei Ej].
        apply Nat.ltb_lt in Ei. apply Nat.ltb_lt in Ej. split; assumption.
      * intro Hk. apply String.eqb_neq in Eknn. contradiction.
Qed.

(** **** X16 -- a graph [manifold_graph] returns is undirected: the
    weight of an edge is the same in both directions, also for the
    neighbour relation of ['knn'], which need not be symmetric; and every
    edge joins nodes of the graph. *)
Theorem manifold_graph_undirected
  (X : list point) (typ : string) (k : nat) (G : Graph) :
  manifold_graph neighbours dist exp_ X typ k = Ok G ->
  symmetric_weights G /\
  forall u v w, adj G u v = Some w ->
                u < List.length X /\ v < List.length X.
Proof.
  intro H.
  destruct (manifold_graph_inv X typ k G H) as (A & _ & Ha & Hin & _).
  split.
  - intros u v. rewrite Ha. apply from_sparse_array_symmetric.
  - intros u v w. rewrite Ha. unfold from_sparse_array; simpl.
    destruct (sp_at A (Nat.max u v) (Nat.min u v)) as [w'|] eqn:E.
    + intros _. destruct (Hin _ _ _ E) as [H1 H2]. lia.
    + intro E'. destruct (Hin _ _ _ E') as [H1 H2]. lia.
Qed.

(** **** X17 -- in a graph returned for the type ['knn'] every node has a
    self-loop, so its degree is at least two: no node is isolated, and
    the degrees the ["rw"] normalisations divide by are never zero. *)
Theorem manifold_graph_knn_self_loops
  (X : list point) (k : nat) (G : Graph) (i : nat) :
  manifold_graph neighbours dist exp_ X "knn" k = Ok G ->
  i < order G ->
  has_edge G (node_at G i) (node_at G i) = true /\
  2 <= degree G (node_at G i) /\
  ~ deg_inv G i =f= Fin 0.
Proof.
  intros H Hi.
  destruct (manifold_graph_inv X "knn" k G H) as (A & Hn & Ha & _ & Hloop).
  assert (Hord : order G = List.length X)
    by (unfold order; rewrite Hn; apply length_seq).
  assert (Hnode : node_at G i = i).
  { unfold node_at. rewrite Hn. rewrite seq_nth by lia. reflexivity. }
  rewrite Hnode.
  assert (Hedge : has_edge G i i = true).
  { unfold has_edge. rewrite Ha. unfold from_sparse_array; simpl.
    rewrite Nat.max_id, Nat.min_id.
    destruct (Hloop eq_refl i ltac:(lia)) as (w & ->). reflexivity. }
  assert (Hdeg : 2 <= degree G i).
  { unfold degree. apply list_sum_ge. apply in_map_iff.
    exists i. rewrite Hedge, Nat.eqb_refl. split; [reflexivity|].
    rewrite Hn. apply in_seq. lia. }
  split; [exact Hedge|]. split; [exact Hdeg|].
  rewrite deg_inv_positive by (rewrite Hnode; lia).
  rewrite Hnode. simpl. intro Hz.
  destruct (degree G i) as [|n]; [lia|].
  unfold Qeq in Hz. simpl in Hz. discriminate Hz.
Qed.

End ManifoldGraphMore.

(** X16 at three points on a line, two neighbours each. *)
Lemma manifold_graph_undirected_witness :
  exists G,
    manifold_graph first_others line_dist unit_exp three_points "knn" 2
    = Ok G /\
    symmetric_weights G /\
    forall u v w, adj G u v = Some w ->
                  u < List.length three_points /\
                  v < List.length three_points.
Proof.
  eexists. split; [reflexivity|].
  eapply (manifold_graph_undirected
            first_others line_dist unit_exp three_points "knn" 2).
  reflexivity.
Defined.

(** X17 at the same graph, node 1. *)
Lemma manifold_graph_knn_self_loops_witness :
  exists G,
    manifold_graph first_others line_dist unit_exp three_points "knn" 2
    = Ok G /\
    has_edge G (node_at G 1) (node_at G 1) = true /\
    2 <= degree G (node_at G 1) /\
    ~ deg_inv G 1 =f= Fin 0.
Proof.
  eexists. split; [reflexivity|].
  eapply (manifold_graph_knn_self_loops
            first_others line_dist unit_exp three_points 2).
  - reflexivity.
  - vm_compute. lia.
Defined.

(** ** The frame projections *)

Lemma Rsum_zero (n : nat) : Rsum (fun _ => 0%R) n = 0%R.
Proof.
  unfold Rsum. induction (seq 0 n) as [|x l IH]; simpl.
  - reflexivity.
  - rewrite IH. ring.
Qed.

Lemma Rsum_swap (f : nat -> nat -> R) (n k : nat) :
  Rsum (fun i => Rsum (fun l => f i l) k) n =
  Rsum (fun l => Rsum (fun i => f i l) n) k.
Proof.
  induction n as [|n IH].
  - unfold Rsum at 1. simpl. symmetry.
    rewrite (Rsum_ext _ (fun _ => 0%R)); [apply Rsum_zero|].
    intros l _. reflexivity.
  - rewrite Rsum_S, IH, <- Rsum_plus.
    apply Rsum_ext. intros l _. rewrite Rsum_S. reflexivity.
Qed.

(** Contracting a combination of the frame vectors with one of them
    gives its coefficient. *)
Lemma frame_contraction (g : gauge_field) (b j : nat) (c : nat -> R) :
  orthonormal g -> b < batch g -> j < frame g ->
  Rsum (fun i => g_at g b i j * Rsum (fun l => g_at g b i l * c l)%R (frame g))%R
       (ambient g)
  = c j.
Proof.
  intros Ho Hb Hj.
  rewrite (Rsum_ext _
             (fun i => Rsum (fun l => g_at g b i j * g_at g b i l * c l)%R
                            (frame g))).
  2:{ intros i _. rewrite <- Rsum_scal. apply Rsum_ext. intros l _. ring. }
  rewrite Rsum_swap.
  rewrite (Rsum_ext _ (fun l => (if j =? l then 1 else 0) * c l)%R).
  - apply Rsum_delta. exact Hj.
  - intros l Hl.
    rewrite <- (Ho b j l Hb Hj Hl).
    rewrite (Rmult_comm _ (c l)), <- Rsum_scal.
    apply Rsum_ext. intros i _. ring.
Qed.

(** [project_to_manifold] is the projection to the local frame followed
    by the reverse projection. *)
Lemma project_to_manifold_composes (x : nat -> nat -> R) (g : gauge_field) :
  arr_eq (project_to_manifold x g)
         (project_to_local_frame
            (arr_at (project_to_local_frame x g false)) g true).
Proof.
  unfold arr_eq, project_to_manifold, project_to_local_frame.
  cbn [nrows ncols arr_at einsum_bj_bij_bi einsum_bji_bi_bj einsum_bij_bi_bj].
  split; [reflexivity|]. split; [reflexivity|].
  intros b i _ _. apply Rsum_ext. intros j _. ring.
Qed.

(** **** X18 -- for orthonormal frames, local coordinates survive the
    round trip through the ambient space: the reverse projection followed
    by the projection to the local frame returns the coordinates. *)
Theorem local_frame_round_trip (c : nat -> nat -> R) (g : gauge_field) :
  orthonormal g ->
  let back := project_to_local_frame
                (arr_at (project_to_local_frame c g true)) g false in
  nrows back = batch g /\ ncols back = frame g /\
  forall b j, b < batch g -> j < frame g -> arr_at back b j = c b j.
Proof.
  intro Ho. cbv zeta. unfold project_to_local_frame.
  cbn [nrows ncols arr_at einsum_bji_bi_bj einsum_bij_bi_bj].
  split; [reflexivity|]. split; [reflexivity|].
  intros b j Hb Hj.
  apply (frame_contraction g b j (c b) Ho Hb Hj).
Qed.

(** **** X19 -- for orthonormal frames [project_to_manifold] is
    idempotent: projecting a projected field again changes nothing. *)
Theorem project_to_manifold_idempotent (x : nat -> nat -> R) (g : gauge_field) :
  orthonormal g ->
  arr_eq (project_to_manifold (arr_at (project_to_manifold x g)) g)
         (project_to_manifold x g).
Proof.
  intro Ho. unfold arr_eq, project_to_manifold.
  cbn [nrows ncols arr_at einsum_bj_bij_bi einsum_bij_bi_bj].
  split; [reflexivity|]. split; [reflexivity|].
  intros b i Hb _.
  apply Rsum_ext. intros j Hj. f_equal.
  rewrite (Rsum_ext _
             (fun i' => g_at g b i' j *
                        Rsum (fun l => g_at g b i' l *
                                       Rsum (fun i0 => g_at g b i0 l * x b i0)
                                            (ambient g))
                             (frame g))%R).
  - apply (frame_contraction g b j
             (fun l => Rsum (fun i0 => g_at g b i0 l * x b i0)%R (ambient g))
             Ho Hb Hj).
  - intros i' _. f_equal. apply Rsum_ext. intros l _. ring.
Qed.

Lemma axis_gauge_orthonormal : orthonormal axis_gauge.
Proof.
  intros b j l Hb Hj Hl. simpl in Hb, Hj, Hl.
  assert (j = 0) by lia. assert (l = 0) by lia. subst.
  unfold Rsum; simpl. ring.
Qed.

(** X18 at one point of the plane with the first axis as its frame. *)
Lemma local_frame_round_trip_witness :
  arr_at (project_to_local_frame
            (arr_at (project_to_local_frame coordinate_7 axis_gauge true))
            axis_gauge false) 0 0
  = 7%R.
Proof.
  apply (proj2 (proj2 (local_frame_round_trip
                         coordinate_7 axis_gauge axis_gauge_orthonormal))
           0 0); simpl; lia.
Defined.

(** X19 at the same frame, for the vector [(3, 4)]. *)
Lemma project_to_manifold_idempotent_witness :
  arr_eq (project_to_manifold
            (arr_at (project_to_manifold vector_3_4 axis_gauge)) axis_gauge)
         (project_to_manifold vector_3_4 axis_gauge).
Proof.
  apply (project_to_manifold_idempotent vector_3_4 axis_gauge
           axis_gauge_orthonormal).
Defined.

(** ** Sampling from the convex hull *)

Lemma Qsum_nonneg (l : list Q) :
  (forall u, In u l -> (0 <= u)%Q) -> (0 <= Qsum l)%Q.
Proof.
  induction l as [|x l IH]; intro H; simpl.
  - apply Qle_refl.
  - assert (Hx := H x (or_introl eq_refl)).
    assert (Hl : (0 <= Qsum l)%Q)
      by (apply IH; intros u Hu; apply H; right; exact Hu).
    change 0%Q with (0 + 0)%Q at 1.
    apply Qplus_le_compat; assumption.
Qed.

Lemma weighted_sum_value (c : nat) (T : Q) (points : list point) (coords : list Q) :
  ~ (T == 0)%Q ->
  weighted_sum points (map (fun u => fdiv (Fin u) (Fin T)) coords) c
  =f= Fin (weighted_sumQ c T points coords).
Proof.
  intro HT. unfold weighted_sum.
  assert (E : Qeq_bool T 0 = false).
  { destruct (Qeq_bool T 0) eqn:E; [|reflexivity].
    apply Qeq_bool_eq in E. contradiction. }
  revert coords. induction points as [|p ps IH]; intros [|u us];
    try reflexivity.
  specialize (IH us). unfold fsum in *.
  cbn [map combine fold_right fst snd weighted_sumQ].
  unfold fdiv at 1. rewrite E.
  destruct (fold_right fadd (Fin 0) _) as [q| | |];
    try (exfalso; exact IH).
  change (q == weighted_sumQ c T ps us)%Q in IH.
  change (nth c p 0 * (u / T) + q
          == nth c p 0 * (u / T) + weighted_sumQ c T ps us)%Q.
  rewrite IH. reflexivity.
Qed.

Lemma weighted_sumQ_bounds
  (c : nat) (T lo hi : Q) (points : list point) (coords : list Q) :
  (0 < T)%Q ->
  List.length points = List.length coords ->
  (forall p, In p points -> (lo <= nth c p 0 <= hi)%Q) ->
  (forall u, In u coords -> (0 <= u)%Q) ->
  (lo * (Qsum coords / T) <= weighted_sumQ c T points coords
   <= hi * (Qsum coords / T))%Q.
Proof.
  intros HT. revert coords.
  induction points as [|p ps IH]; intros [|u us] Hlen Hp Hu; simpl in *;
    try discriminate.
  - unfold Qdiv. split; ring_simplify; apply Qle_refl.
  - destruct (IH us) as [IHlo IHhi].
    + lia.
    + intros q Hq. apply Hp. right; exact Hq.
    + intros v Hv. apply Hu. right; exact Hv.
    + destruct (Hp p (or_introl eq_refl)) as [Hplo Hphi].
      assert (Hu0 := Hu u (or_introl eq_refl)).
      assert (Hinv : (0 < / T)%Q) by (apply Qinv_lt_0_compat; exact HT).
      unfold Qdiv in *.
      set (r := (/ T)%Q) in *.
      set (w := (u * r)%Q).
      assert (Hw : (0 <= w)%Q).
      { unfold w. apply Qmult_le_0_compat; [exact Hu0 | apply Qlt_le_weak; exact Hinv]. }
      assert (H1 : (lo * w <= nth c p 0 * w)%Q)
        by (apply Qmult_le_compat_r; assumption).
      assert (H2 : (nth c p 0 * w <= hi * w)%Q)
        by (apply Qmult_le_compat_r; assumption).
      assert (E1 : (lo * ((u + Qsum us) * r) == lo * w + lo * (Qsum us * r))%Q)
        by (unfold w; ring).
      assert (E2 : (hi * ((u + Qsum us) * r) == hi * w + hi * (Qsum us * r))%Q)
        by (unfold w; ring).
      fold w. rewrite E1, E2.
      split; apply Qplus_le_compat; assumption.
Qed.

Section ConvexHullFacts.

Variable uniform : nat -> Q.

Hypothesis uniform_nonneg : forall k, (0 <= uniform k)%Q.

Lemma draw_nonneg (pos m : nat) (u : Q) : In u (draw uniform pos m) -> (0 <= u)%Q.
Proof.
  unfold draw. intro H. apply in_map_iff in H.
  destruct H as (k & <- & _). apply uniform_nonneg.
Qed.

(** One sample: each of its coordinates is a number between the smallest
    and the largest value the points take in that coordinate. *)
Lemma convex_sample_bounds
  (points : list point) (pos c : nat) (lo hi : Q) :
  (0 < Qsum (draw uniform pos (List.length points)))%Q ->
  (forall p, In p points -> (lo <= nth c p 0 <= hi)%Q) ->
  c < List.length (hd [] points) ->
  exists q,
    nth c (convex_sample points (draw uniform pos (List.length points))) (Fin 0)
    =f= Fin q /\
    (lo <= q <= hi)%Q.
Proof.
  intros Hsum Hp Hc.
  set (coords := draw uniform pos (List.length points)) in *.
  set (T := Qsum coords) in *.
  assert (HT : ~ (T == 0)%Q).
  { intro Hz. rewrite Hz in Hsum. apply (Qlt_irrefl 0). exact Hsum. }
  exists (weighted_sumQ c T points coords). split.
  - unfold convex_sample. fold T.
    rewrite (nth_indep _ (Fin 0)
               (weighted_sum points
                  (map (fun u => fdiv (Fin u) (Fin T)) coords) 0))
      by (rewrite length_map, length_seq; exact Hc).
    rewrite (map_nth (weighted_sum points
                        (map (fun u => fdiv (Fin u) (Fin T)) coords))
                     (seq 0 (List.length (hd [] points))) 0 c).
    rewrite seq_nth by exact Hc. simpl.
    apply weighted_sum_value. exact HT.
  - assert (Hb := weighted_sumQ_bounds c T lo hi points coords Hsum).
    destruct Hb as [Hlo Hhi].
    + unfold coords, draw. rewrite length_map, length_seq. reflexivity.
    + exact Hp.
    + intros u Hu. apply (draw_nonneg pos (List.length points) u Hu).
    + assert (Hone : (Qsum coords / T == 1)%Q) by (unfold T; field; exact HT).
      rewrite Hone, Qmult_1_r in Hlo, Hhi. split; assumption.
Qed.

(** **** X20 -- [sample_from_convex_hull] returns [n] samples and draws
    [n] times as many numbers as there are points; when the numbers drawn
    are not negative and those of each round do not all vanish, every
    coordinate of every sample lies between the smallest and the largest
    value the points take in that coordinate. *)
Theorem sample_from_convex_hull_bounds
  (points : list point) (n pos c : nat) (lo hi : Q) :
  (forall t, t < n ->
     (0 < Qsum (draw uniform (pos + t * List.length points)
                     (List.length points)))%Q) ->
  (forall p, In p points -> (lo <= nth c p 0 <= hi)%Q) ->
  c < List.length (hd [] points) ->
  List.length (fst (sample_from_convex_hull uniform points n pos)) = n /\
  snd (sample_from_convex_hull uniform points n pos)
  = pos + n * List.length points /\
  forall s, In s (fst (sample_from_convex_hull uniform points n pos)) ->
    exists q, nth c s (Fin 0) =f= Fin q /\ (lo <= q <= hi)%Q.
Proof.
  intros Hsum Hp Hc. revert pos Hsum.
  induction n as [|n IH]; intros pos Hsum.
  - simpl. split; [reflexivity|]. split; [lia|]. intros s [].
  - cbn [sample_from_convex_hull].
    destruct (IH (pos + List.length points)) as (Hlen & Hpos & Hin).
    { intros t Ht.
      replace (pos + List.length points + t * List.length points)
        with (pos + S t * List.length points) by lia.
      apply Hsum. lia. }
    destruct (sample_from_convex_hull uniform points n
                (pos + List.length points)) as [samples pos'].
    cbn [fst snd] in *.
    split; [simpl; lia|]. split; [lia|].
    intros s [<- | Hs].
    + apply convex_sample_bounds; try assumption.
      replace pos with (pos + 0 * List.length points) by lia.
      apply Hsum. lia.
    + apply Hin. exact Hs.
Qed.

End ConvexHullFacts.

Lemma alternating_draws_nonneg (k : nat) : (0 <= alternating_draws k)%Q.
Proof. unfold alternating_draws. destruct (Nat.even k); discriminate. Qed.

(** X20 for two samples from three points on a line. *)
Lemma sample_from_convex_hull_bounds_witness :
  List.length (fst (sample_from_convex_hull alternating_draws three_points 2 0))
  = 2 /\
  snd (sample_from_convex_hull alternating_draws three_points 2 0)
  = 0 + 2 * List.length three_points /\
  forall s,
    In s (fst (sample_from_convex_hull alternating_draws three_points 2 0)) ->
    exists q, nth 0 s (Fin 0) =f= Fin q /\ (0 <= q <= 2)%Q.
Proof.
  apply (sample_from_convex_hull_bounds
           alternating_draws alternating_draws_nonneg three_points 2 0 0 0 2).
  - intros t Ht.
    destruct t as [|[|t]]; [reflexivity | reflexivity | lia].
  - intros p [<- | [<- | [<- | []]]]; split; discriminate.
  - simpl. lia.
Defined.

Lemma path3_undirected : undirected path3.
Proof. apply symmetric_undirected. exact path3_symmetric. Qed.

(** X21 at the path 0 - 1 - 2. *)
Lemma compute_laplacian_rw_finite_witness :
  is_finite
    (todense (multiply_row_vector (unnormalised path3)
                (fun j => fdiv (Fin 1)
                            (of_nat (degree path3 (node_at path3 j))))) 0 1)
  = true.
Proof.
  apply (compute_laplacian_rw_finite path3 _ 0 1 path3_undirected).
  apply compute_laplacian_rw. vm_compute. lia.
Defined.

(** X22 at six points on a line. *)
Lemma enough_points_return_witness :
  exists perm lambdas,
    furthest_point_sampling line_dist six_points (Some 2) (1 # 10) 0
    = Ok (perm, Some lambdas).
Proof.
  apply (enough_points_return line_dist six_points (Some 2) (1 # 10) 0).
  - exact tenth_not_zero.
  - reflexivity.
  - simpl. lia.
  - discriminate.
Defined.

(** **** X6 -- [compute_laplacian] knows the normalisation ["rw"] only:
    for every other value, ["sym"] among them, it returns the
    unnormalised Laplacian and raises nothing. *)
Theorem compute_laplacian_ignores_other_normalizations
  (G : Graph) (normalization : string) :
  normalization <> "rw"%string ->
  compute_laplacian G (Some normalization) = compute_laplacian G None.
Proof.
  intro Hne. unfold compute_laplacian.
  destruct (laplacian_matrix G) as [L|e]; cbn [bind]; [|reflexivity].
  destruct normalization as [|a s]; [reflexivity|].
  destruct a as [b0 b1 b2 b3 b4 b5 b6 b7].
  destruct b0, b1, b2, b3, b4, b5, b6, b7; try reflexivity.
  destruct s as [|a s]; [reflexivity|].
  destruct a as [b0 b1 b2 b3 b4 b5 b6 b7].
  destruct b0, b1, b2, b3, b4, b5, b6, b7; try reflexivity.
  destruct s as [|a s]; [|reflexivity].
  exfalso. apply Hne. reflexivity.
Qed.

(** X6 for ["sym"] at the path 0 - 1 - 2. *)
Lemma compute_laplacian_ignores_other_normalizations_witness :
  compute_laplacian path3 (Some "sym"%string) = compute_laplacian path3 None.
Proof.
  apply (compute_laplacian_ignores_other_normalizations path3 "sym").
  discriminate.
Defined.
